(** * smallsh: a shallow embedding of the job-control and dispatch engine

    The development follows [smallsh.c] function by function.

    - C strings are [string]s holding the characters before the terminating
      NUL; a [char*] that may be [NULL] is an [option string].
    - The [args] array (NULL-terminated, [MAX_NUMBER_ARGS] slots) is the list
      of its non-NULL prefix.  The fixed buffer sizes of the source
      ([MAX_NUMBER_ARGS], [ARBITRARY_MAX_WORD_LENGTH]) are not part of the
      model: every statement below is about lines that fit in them.
    - The global flags only ever hold [TRUE] or [FALSE] and are [bool]s;
      pids, sizes, capacities and exit codes are [Z]; no computation of
      the program on them leaves the range of [int] before memory runs
      out (the capacity doubles from 10 and follows the number of live
      jobs), so no wrap-around is written.
    - System calls ([open], [execvp], [waitpid], [getpid]) are answers taken
      from an explicit environment. *)

From Stdlib Require Import ZArith List String Ascii Bool Lia DecimalString.
From stdpp Require Import list.
Import ListNotations.

Local Open Scope Z_scope.

(** ** Global variables of the program *)

Record globals := mkGlobals {
  inputRedirectionFileName : string;
  outputRedirectionFileName : string;
  background_allowed : bool;
  previous_background_allowed : bool;
  inputRedirectionFlag : bool;
  outputRedirectionFlag : bool;
  backgroundFlag : bool;
  foregroundProcessRunning : bool
}.

(** The initial values written at the top of the source file. *)
Definition initial_globals : globals :=
  {| inputRedirectionFileName := EmptyString;
     outputRedirectionFileName := EmptyString;
     background_allowed := true;
     previous_background_allowed := true;
     inputRedirectionFlag := false;
     outputRedirectionFlag := false;
     backgroundFlag := false;
     foregroundProcessRunning := false |}.

Definition set_input (name : string) (g : globals) : globals :=
  {| inputRedirectionFileName := name;
     outputRedirectionFileName := outputRedirectionFileName g;
     background_allowed := background_allowed g;
     previous_background_allowed := previous_background_allowed g;
     inputRedirectionFlag := true;
     outputRedirectionFlag := outputRedirectionFlag g;
     backgroundFlag := backgroundFlag g;
     foregroundProcessRunning := foregroundProcessRunning g |}.

Definition set_output (name : string) (g : globals) : globals :=
  {| inputRedirectionFileName := inputRedirectionFileName g;
     outputRedirectionFileName := name;
     background_allowed := background_allowed g;
     previous_background_allowed := previous_background_allowed g;
     inputRedirectionFlag := inputRedirectionFlag g;
     outputRedirectionFlag := true;
     backgroundFlag := backgroundFlag g;
     foregroundProcessRunning := foregroundProcessRunning g |}.

Definition set_backgroundFlag (b : bool) (g : globals) : globals :=
  {| inputRedirectionFileName := inputRedirectionFileName g;
     outputRedirectionFileName := outputRedirectionFileName g;
     background_allowed := background_allowed g;
     previous_background_allowed := previous_background_allowed g;
     inputRedirectionFlag := inputRedirectionFlag g;
     outputRedirectionFlag := outputRedirectionFlag g;
     backgroundFlag := b;
     foregroundProcessRunning := foregroundProcessRunning g |}.

Definition set_foregroundProcessRunning (b : bool) (g : globals) : globals :=
  {| inputRedirectionFileName := inputRedirectionFileName g;
     outputRedirectionFileName := outputRedirectionFileName g;
     background_allowed := background_allowed g;
     previous_background_allowed := previous_background_allowed g;
     inputRedirectionFlag := inputRedirectionFlag g;
     outputRedirectionFlag := outputRedirectionFlag g;
     backgroundFlag := backgroundFlag g;
     foregroundProcessRunning := b |}.

Definition set_background_allowed (b : bool) (g : globals) : globals :=
  {| inputRedirectionFileName := inputRedirectionFileName g;
     outputRedirectionFileName := outputRedirectionFileName g;
     background_allowed := b;
     previous_background_allowed := previous_background_allowed g;
     inputRedirectionFlag := inputRedirectionFlag g;
     outputRedirectionFlag := outputRedirectionFlag g;
     backgroundFlag := backgroundFlag g;
     foregroundProcessRunning := foregroundProcessRunning g |}.

Definition set_previous_background_allowed (b : bool) (g : globals) : globals :=
  {| inputRedirectionFileName := inputRedirectionFileName g;
     outputRedirectionFileName := outputRedirectionFileName g;
     background_allowed := background_allowed g;
     previous_background_allowed := b;
     inputRedirectionFlag := inputRedirectionFlag g;
     outputRedirectionFlag := outputRedirectionFlag g;
     backgroundFlag := backgroundFlag g;
     foregroundProcessRunning := foregroundProcessRunning g |}.

(** [resetFlags]: the three per-line flags go back to 0; the two file-name
    buffers keep their contents. *)
Definition resetFlags (g : globals) : globals :=
  {| inputRedirectionFileName := inputRedirectionFileName g;
     outputRedirectionFileName := outputRedirectionFileName g;
     background_allowed := background_allowed g;
     previous_background_allowed := previous_background_allowed g;
     inputRedirectionFlag := false;
     outputRedirectionFlag := false;
     backgroundFlag := false;
     foregroundProcessRunning := foregroundProcessRunning g |}.

(** The text that the conversion [%d] of [printf] and [sprintf] produces. *)
Definition decimal (n : Z) : string :=
  NilZero.string_of_int (Z.to_int n).

(** The line-feed character, and a line of output ended by it. *)
Definition LF : string := String "010" EmptyString.

Definition line_of (text : string) : string := String.append text LF.

(** The status word that [waitpid] fills, as the macros of [sys/wait.h]
    read it: [WIFEXITED] with [WEXITSTATUS], [WIFSIGNALED] with [WTERMSIG],
    or neither. *)
Inductive wstatus := WExited (code : Z) | WSignaled (signal : Z) | WOther.

(** ** Tokenizer and directive parser *)

Module Parser.

Local Open Scope string_scope.

(** [sprintf(pidString, "%d", getpid())]: the decimal text of the pid. *)
Definition pidString (pid : Z) : string := decimal pid.

(** The test of [getArgs] on one character: a space or a tab. *)
Definition is_blank (c : ascii) : bool :=
  (c =? " ")%char || (c =? "009")%char.

(** The [while] loop of [getArgs].  [currWord] is the word being collected;
    every blank closes it and stores it, empty or not, and the word left at
    the end of the line is stored after the loop. *)
Fixpoint getArgs_loop (promptInput : string) (currWord : string) : list string :=
  match promptInput with
  | EmptyString => [currWord]
  | String c rest =>
      if is_blank c
      then currWord :: getArgs_loop rest EmptyString
      else getArgs_loop rest (currWord ++ String c EmptyString)
  end.

Definition getArgs (promptInput : string) : list string :=
  getArgs_loop promptInput EmptyString.

(** [isWord]: false on [NULL], on the empty string and on a lone [<], [>]
    or [&]. *)
Definition isWord (word : option string) : bool :=
  match word with
  | None => false
  | Some EmptyString => false
  | Some (String c EmptyString) =>
      negb ((c =? "<")%char || (c =? ">")%char || (c =? "&")%char)
  | Some (String _ (String _ _)) => true
  end.

(** [replaceDoubleDollars]: scans for the first place where two dollar
    signs follow each other, splices the pid text in place of the pair and
    returns at once. *)
Fixpoint replaceDoubleDollars (pid : Z) (arg : string) : string :=
  match arg with
  | String c1 (String c2 rest as tl) =>
      if (c1 =? "$")%char && (c2 =? "$")%char
      then pidString pid ++ rest
      else String c1 (replaceDoubleDollars pid tl)
  | _ => arg
  end.

(** The state of the loop of [parseArgs]: [kept] is [args[0..actualIndex)],
    [pending] is [args[examineIndex..]] up to the terminating NULL. *)
Record parse_state := mkParse {
  kept : list string;
  pending : list string;
  glob : globals
}.

(** [argsFilterDown]: the examined argument moves to [args[actualIndex]]
    and both indices advance. *)
Definition argsFilterDown (st : parse_state) : parse_state :=
  match pending st with
  | [] => st
  | t :: tl => {| kept := kept st ++ [t]; pending := tl; glob := glob st |}
  end.

(** One turn of the [while] loop of [parseArgs]; [None] when
    [args[examineIndex]] is NULL. *)
Definition parse_iter (pid : Z) (st : parse_state) : option parse_state :=
  match pending st with
  | [] => None
  | t :: tl =>
      if t =? "<" then
        match tl with
        | w :: tl' =>
            if isWord (Some w)
            then Some {| kept := kept st; pending := tl';
                         glob := set_input w (glob st) |}
            else Some (argsFilterDown st)
        | [] => Some (argsFilterDown st)
        end
      else if t =? ">" then
        match tl with
        | w :: tl' =>
            if isWord (Some w)
            then Some {| kept := kept st; pending := tl';
                         glob := set_output w (glob st) |}
            else Some (argsFilterDown st)
        | [] => Some (argsFilterDown st)
        end
      else if t =? "$$" then
        Some {| kept := kept st; pending := pidString pid :: tl;
                glob := glob st |}
      else if t =? "&" then
        match tl with
        | [] =>
            Some {| kept := kept st; pending := tl;
                    glob := set_backgroundFlag
                              (if background_allowed (glob st) then true else false)
                              (glob st) |}
        | _ :: _ => Some (argsFilterDown st)
        end
      else
        Some (argsFilterDown
                {| kept := kept st;
                   pending := replaceDoubleDollars pid t :: tl;
                   glob := glob st |})
  end.

(** The loop itself, bounded by [fuel] turns: it stops when
    [args[examineIndex]] is NULL. *)
Fixpoint parse_loop (pid : Z) (fuel : nat) (st : parse_state) : parse_state :=
  match parse_iter pid st with
  | None => st
  | Some st' =>
      match fuel with
      | O => st
      | S fuel' => parse_loop pid fuel' st'
      end
  end.

(** [parseArgs]: both indices start at 0; after the loop the slot at
    [actualIndex] is set to NULL, so the argument vector that remains is
    [kept].  A turn consumes a token or rewrites one that is exactly the
    marker, so two turns per token are enough for the loop to reach its
    exit (lemma [parseArgs_completes] below). *)
Definition parseArgs_state (pid : Z) (args : list string) (g : globals)
  : parse_state :=
  parse_loop pid (2 * List.length args)
    {| kept := []; pending := args; glob := g |}.

Definition parseArgs (pid : Z) (args : list string) (g : globals)
  : list string * globals :=
  let st := parseArgs_state pid args g in (kept st, glob st).

End Parser.


(** ** Job registry: the [processArray] dynamic array *)

Module Registry.

(** [struct processArray]; [array] is the heap block, whose length is
    [capacity] in every state the program builds. *)
Record processes := mkProcesses {
  capacity : Z;
  size : Z;
  array : list Z
}.

(** [createProcessArray]: ten slots, all 0, no entry. *)
Definition createProcessArray : processes :=
  {| capacity := 10; size := 0; array := replicate 10%nat 0 |}.

(** [doubleCapacity]: a block twice as long, zeroed, receives the old
    slots at the same indices. *)
Definition doubleCapacity (proc : processes) : processes :=
  {| capacity := capacity proc * 2;
     size := size proc;
     array := array proc ++ replicate (Z.to_nat (capacity proc)) 0 |}.

(** The loop that follows [doubleCapacity] in [processesAdd]: the slots
    from [size] to the end are set to 0 again. *)
Definition zero_from_size (proc : processes) : processes :=
  {| capacity := capacity proc;
     size := size proc;
     array := take (Z.to_nat (size proc)) (array proc)
              ++ replicate (Z.to_nat (capacity proc - size proc)) 0 |}.

(** [processesAdd]: grow when full, then store [val] in the first slot
    that holds 0 and count it; when no slot holds 0 nothing is stored. *)
Definition processesAdd (proc : processes) (val : Z) : processes :=
  let proc :=
    if capacity proc =? size proc
    then zero_from_size (doubleCapacity proc)
    else proc in
  match list_find (fun x => x = 0) (array proc) with
  | Some (index, _) =>
      {| capacity := capacity proc;
         size := size proc + 1;
         array := <[index := val]> (array proc) |}
  | None => proc
  end.

(** [processesRemove]: at the first slot equal to [val] the rest of the
    block moves down by one, the last slot becomes 0 and [size] drops by
    one; when no slot matches nothing changes. *)
Definition processesRemove (proc : processes) (val : Z) : processes :=
  match list_find (fun x => x = val) (array proc) with
  | Some (i, _) =>
      {| capacity := capacity proc;
         size := size proc - 1;
         array := delete i (array proc) ++ [0] |}
  | None => proc
  end.

(** The slots [array[0]], ..., [array[size-1]] that the loop of
    [cleanupProcs] reads. *)
Definition enumerate (proc : processes) : list Z :=
  take (Z.to_nat (size proc)) (array proc).

(** The answer of [waitpid(pid, &results, WNOHANG)]: the returned pid and
    the status word. *)
Definition waitpid_nohang := Z -> Z * wstatus.

(** What [cleanupProcs] prints for one finished job: its pid and the
    status word it was reaped with. *)
Record reaped := mkReaped { reaped_pid : Z; reaped_status : wstatus }.

(** The loop of [cleanupProcs].  A job that has finished is removed and
    the index stays where it is ([i--] followed by [++i]); otherwise the
    index advances.  [fuel] bounds the number of turns. *)
Fixpoint cleanupProcs_loop (wait : waitpid_nohang) (fuel : nat) (i : Z)
    (procs : processes) (printed : list reaped) : processes * list reaped :=
  match fuel with
  | O => (procs, printed)
  | S fuel' =>
      if i <? size procs then
        let '(pid, results) := wait (nth (Z.to_nat i) (array procs) 0) in
        if 0 <? pid
        then cleanupProcs_loop wait fuel' i (processesRemove procs pid)
               (printed ++ [mkReaped pid results])
        else cleanupProcs_loop wait fuel' (i + 1) procs printed
      else (procs, printed)
  end.

Definition cleanupProcs (wait : waitpid_nohang) (procs : processes)
  : processes * list reaped :=
  cleanupProcs_loop wait (Z.to_nat (size procs)) 0 procs [].

(** Registry operations as the shell issues them, and their replay from
    the empty registry. *)
Inductive op := Add (pid : Z) | Remove (pid : Z).

Definition apply_op (proc : processes) (o : op) : processes :=
  match o with
  | Add pid => processesAdd proc pid
  | Remove pid => processesRemove proc pid
  end.

Definition run_ops (ops : list op) : processes :=
  fold_left apply_op ops createProcessArray.

(** The jobs that are alive after a sequence of operations, oldest
    first. *)
Fixpoint remove_first (pid : Z) (l : list Z) : list Z :=
  match l with
  | [] => []
  | x :: l' => if x =? pid then l' else x :: remove_first pid l'
  end.

Definition live_step (l : list Z) (o : op) : list Z :=
  match o with
  | Add pid => l ++ [pid]
  | Remove pid => remove_first pid l
  end.

Definition live_after (ops : list op) : list Z := fold_left live_step ops [].

(** A sequence of operations is admissible when it adds only non-zero pids
    that are not alive and removes only pids that are. *)
Fixpoint admissible_from (l : list Z) (ops : list op) : Prop :=
  match ops with
  | [] => True
  | Add pid :: ops' =>
      pid <> 0 /\ ~ In pid l /\ admissible_from (l ++ [pid]) ops'
  | Remove pid :: ops' =>
      In pid l /\ admissible_from (remove_first pid l) ops'
  end.

Definition admissible (ops : list op) : Prop := admissible_from [] ops.

(** The shape of a registry holding the jobs [l]: they fill the first
    slots in order, [size] counts them, every other slot is 0 and the block
    is [capacity] long. *)
Definition holds (proc : processes) (l : list Z) : Prop :=
  0 < capacity proc /\
  Z.of_nat (List.length (array proc)) = capacity proc /\
  size proc = Z.of_nat (List.length l) /\
  take (Z.to_nat (size proc)) (array proc) = l /\
  drop (Z.to_nat (size proc)) (array proc)
    = replicate (Z.to_nat (capacity proc - size proc)) 0 /\
  Forall (fun x => x <> 0) l.

(** [waitpid] on one pid answers that pid when the job has finished, and
    0 or -1 otherwise. *)
Definition answers_asked (wait : waitpid_nohang) : Prop :=
  forall pid, fst (wait pid) = pid \/ fst (wait pid) <= 0.

(** The test of [cleanupProcs] on the answer for [pid]. *)
Definition finished (wait : waitpid_nohang) (pid : Z) : bool :=
  0 <? fst (wait pid).

Definition still_running (wait : waitpid_nohang) (pid : Z) : bool :=
  negb (finished wait pid).

(** The report of [cleanupProcs] on a job that has finished. *)
Definition report (wait : waitpid_nohang) (pid : Z) : reaped :=
  mkReaped pid (snd (wait pid)).

End Registry.

(** ** Mode controller: the SIGTSTP handler and the deferred message *)

Module ModeController.

Local Open Scope string_scope.

Definition entering_text : string :=
  LF ++ line_of "Entering foreground-only mode (& is now ignored)".

Definition exiting_text : string :=
  LF ++ line_of "Exiting foreground-only mode".

(** The text that announces the mode [allowed]. *)
Definition notice (allowed : bool) : string :=
  if allowed then exiting_text else entering_text.

(** [shellCatchSIGTSTP]: the flag is flipped first.  While a foreground
    process runs the handler returns at once; otherwise it writes the
    notice followed by a fresh prompt character and records the mode as
    announced.  The list is what is written to standard output. *)
Definition shellCatchSIGTSTP (g : globals) : globals * list string :=
  let g := set_background_allowed (xorb (background_allowed g) true) g in
  if foregroundProcessRunning g then (g, [])
  else
    let message :=
      if negb (background_allowed g)
      then entering_text ++ ":"
      else exiting_text ++ ":" in
    (set_previous_background_allowed (background_allowed g) g, [message]).

(** [displayBGMessage]: nothing when the two flags agree; otherwise the
    notice of the current mode is printed and the mode recorded as
    announced. *)
Definition displayBGMessage (g : globals) : globals * list string :=
  if Bool.eqb (background_allowed g) (previous_background_allowed g)
  then (g, [])
  else
    let message :=
      if negb (background_allowed g) then entering_text else exiting_text in
    (set_previous_background_allowed (background_allowed g) g, [message]).

(** What can happen to the flags, one at a time: the signal is delivered,
    the prompt is about to be displayed, [spawnProcess] starts or ends its
    blocking wait. *)
Inductive event := Sigtstp | Display | WaitBegins | WaitEnds.

Definition step (g : globals) (e : event) : globals * list string :=
  match e with
  | Sigtstp => shellCatchSIGTSTP g
  | Display => displayBGMessage g
  | WaitBegins => (set_foregroundProcessRunning true g, [])
  | WaitEnds => (set_foregroundProcessRunning false g, [])
  end.

Fixpoint run (events : list event) (g : globals) : globals * list string :=
  match events with
  | [] => (g, [])
  | e :: events' =>
      let '(g1, out1) := step g e in
      let '(g2, out2) := run events' g1 in
      (g2, (out1 ++ out2)%list)
  end.

(** The claim on deferred notices, as the specification words it: a signal
    delivered during a foreground wait writes nothing, and the display that
    follows the wait prints one notice. *)
Definition deferred_notice_always (g : globals) : Prop :=
  foregroundProcessRunning g = true ->
  snd (shellCatchSIGTSTP g) = [] /\
  List.length (snd (run [WaitEnds; Display] (fst (shellCatchSIGTSTP g)))) = 1%nat.

End ModeController.

(** ** Process spawner *)

Module Spawner.

Import Registry.
Local Open Scope string_scope.

(** What a process does on a signal. *)
Inductive sighandler := SIG_DFL | SIG_IGN | Caught (handler : string).

Record signals := mkSignals { on_SIGINT : sighandler; on_SIGTSTP : sighandler }.

(** [setInterrupts]: the shell catches both signals. *)
Definition setInterrupts : signals :=
  {| on_SIGINT := Caught "catchSIGINT";
     on_SIGTSTP := Caught "shellCatchSIGTSTP" |}.

(** Program replacement resets a caught signal to its default action and
    keeps the two other settings. *)
Definition across_exec (h : sighandler) : sighandler :=
  match h with
  | Caught _ => SIG_DFL
  | _ => h
  end.

Inductive open_flags := O_RDONLY | O_WRONLY_CREAT_TRUNC | O_WRONLY_CREAT.

(** What a standard descriptor of the child refers to. *)
Inductive stream := Inherited | Opened (path : string) (flags : open_flags).

(** The answers of the system to the child: [sys_open] is the descriptor
    returned by [open] (-1 on failure); [sys_execvp] is [None] when the
    image is replaced and the text of [strerror(errno)] when [execvp]
    returns -1. *)
Record os := mkOs {
  sys_open : string -> open_flags -> Z;
  sys_execvp : list string -> option string
}.

(** [dup2(fd, target)]: fails, and changes nothing, on a bad descriptor. *)
Definition dup2 (fd : Z) (opened old : stream) : stream :=
  if (fd <? 0)%Z then old else opened.

(** How the child ends: [exit(code)] or a successful [execvp]. *)
Inductive child_end := Exit (code : Z) | Exec (argv : list string).

Record child := mkChild {
  child_signals : signals;
  fd0 : stream;
  fd1 : stream;
  child_printed : list string;
  child_ended : child_end
}.

(** [errorString[0] += 32] on the zero-filled buffer holding the reason. *)
Definition bump_first (reason : string) : string :=
  match reason with
  | EmptyString => String (ascii_of_nat 32) EmptyString
  | String c rest => String (ascii_of_nat (nat_of_ascii c + 32)) rest
  end.

(** The input part of [case 0]: [None] when the child has called
    [exit(1)], else what descriptor 0 refers to. *)
Definition child_input (sys : os) (g : globals) : option stream :=
  if inputRedirectionFlag g then
    let inputFile := sys_open sys (inputRedirectionFileName g) O_RDONLY in
    if (inputFile =? -1)%Z then None
    else Some (dup2 inputFile (Opened (inputRedirectionFileName g) O_RDONLY)
                 Inherited)
  else if backgroundFlag g then
    let inputFile := sys_open sys "/dev/null" O_RDONLY in
    Some (dup2 inputFile (Opened "/dev/null" O_RDONLY) Inherited)
  else Some Inherited.

(** The output part of [case 0]: the descriptor returned by [open] goes
    to [dup2] as it is. *)
Definition child_output (sys : os) (g : globals) : stream :=
  if outputRedirectionFlag g then
    let outputFile :=
      sys_open sys (outputRedirectionFileName g) O_WRONLY_CREAT_TRUNC in
    dup2 outputFile
      (Opened (outputRedirectionFileName g) O_WRONLY_CREAT_TRUNC) Inherited
  else if backgroundFlag g then
    let outputFile := sys_open sys "/dev/null" O_WRONLY_CREAT in
    dup2 outputFile (Opened "/dev/null" O_WRONLY_CREAT) Inherited
  else Inherited.

(** [case 0] of [spawnProcess]: the child, from [fork] to [exit] or to
    the new image.  [sigs] is the signal table inherited from the shell. *)
Definition spawnProcess_child (sys : os) (sigs : signals)
    (args : list string) (g : globals) : child :=
  let sigs := {| on_SIGINT := on_SIGINT sigs; on_SIGTSTP := SIG_IGN |} in
  match child_input sys g with
  | None =>
      {| child_signals := sigs; fd0 := Inherited; fd1 := Inherited;
         child_printed :=
           [line_of ("cannot open " ++ inputRedirectionFileName g
                     ++ " for input")];
         child_ended := Exit 1 |}
  | Some input =>
      let output := child_output sys g in
      match sys_execvp sys args with
      | None =>
          {| child_signals :=
               {| on_SIGINT := across_exec (on_SIGINT sigs);
                  on_SIGTSTP := across_exec (on_SIGTSTP sigs) |};
             fd0 := input; fd1 := output;
             child_printed := [];
             child_ended := Exec args |}
      | Some reason =>
          {| child_signals := sigs; fd0 := input; fd1 := output;
             child_printed :=
               [line_of (default EmptyString (head args) ++ ": "
                         ++ bump_first reason)];
             child_ended := Exit 1 |}
      end
  end.

(** [struct Results]. *)
Record result := mkResult { code : Z; sig : Z }.

(** The state the parent owns: the flags, the registry, the last
    foreground result and what it has printed. *)
Record parent := mkParent {
  p_glob : globals;
  p_procs : processes;
  p_status : result;
  p_printed : list string
}.

(** [case -1] and [default] of [spawnProcess]: the parent.  [pid] is the
    value returned by [fork], [results] the status of the blocking
    [waitpid].  [p_printed] is what goes to standard output; the message
    of [perror] goes to standard error and is not recorded. *)
Definition spawnProcess_parent (pid : Z) (results : wstatus)
    (g : globals) (procs : processes) (status : result) : parent :=
  if (pid =? -1)%Z then
    {| p_glob := g; p_procs := procs; p_status := status;
       p_printed := [] |}
  else if backgroundFlag g then
    {| p_glob := g; p_procs := processesAdd procs pid; p_status := status;
       p_printed := [line_of ("background pid is " ++ decimal pid)] |}
  else
    let g := set_foregroundProcessRunning false
               (set_foregroundProcessRunning true g) in
    match results with
    | WExited c =>
        {| p_glob := g; p_procs := procs;
           p_status := {| code := c; sig := 0 |};
           p_printed := [] |}
    | WSignaled s =>
        {| p_glob := g; p_procs := procs;
           p_status := {| code := s; sig := 1 |};
           p_printed := [line_of ("terminated by signal " ++ decimal s)] |}
    | WOther =>
        {| p_glob := g; p_procs := procs; p_status := status;
           p_printed := [] |}
    end.

(** The answers of the system to one call of [spawnProcess]. *)
Record spawn_env := mkSpawnEnv {
  fork_pid : Z;
  child_os : os;
  wait_results : wstatus
}.

(** [spawnProcess]: the parent's side, and the child when [fork] made
    one. *)
Definition spawnProcess (env : spawn_env) (sigs : signals)
    (args : list string) (procs : processes) (status : result) (g : globals)
  : parent * option child :=
  (spawnProcess_parent (fork_pid env) (wait_results env) g procs status,
   if (fork_pid env =? -1)%Z then None
   else Some (spawnProcess_child (child_os env) sigs args g)).

(** The answers of a system on which every [open] and [execvp] succeed. *)
Definition obliging : os :=
  {| sys_open := fun _ _ => 3; sys_execvp := fun _ => None |}.

(** The answers of a system on which no file can be opened and every
    [execvp] succeeds. *)
Definition no_files : os :=
  {| sys_open := fun _ _ => (-1); sys_execvp := fun _ => None |}.

End Spawner.

(** ** Dispatch loop *)

Module Main.

Import Parser Registry Spawner ModeController.
Local Open Scope string_scope.

Definition CD_CODE : Z := 0.
Definition STATUS_CODE : Z := 1.
Definition EXIT_CODE : Z := 2.
Definition COMMENT_CODE : Z := 3.

(** [isBuiltIn]: [COMMENT_CODE] on NULL, on a first character [#] and on
    the empty word; else the index of the word among ["cd"], ["status"],
    ["exit"], or -1. *)
Definition isBuiltIn (userInput : option string) : Z :=
  match userInput with
  | None => COMMENT_CODE
  | Some EmptyString => COMMENT_CODE
  | Some (String c _ as word) =>
      if (c =? "#")%char then COMMENT_CODE
      else if word =? "cd" then CD_CODE
      else if word =? "status" then STATUS_CODE
      else if word =? "exit" then EXIT_CODE
      else (-1)%Z
  end.

(** The end of [prompt]: the line is cut at its first line feed. *)
Fixpoint strip_newline (promptInput : string) : string :=
  match promptInput with
  | EmptyString => EmptyString
  | String c rest =>
      if (c =? "010")%char then EmptyString
      else String c (strip_newline rest)
  end.

(** What one turn of the loop does to the outside, in order. *)
Inductive effect :=
| Stdout (text : string)
| Done (job : reaped)
| Chdir (path : option string)
| Forked (c : child).

(** The locals of [main] together with the globals. *)
Record shell := mkShell {
  sh_glob : globals;
  sh_procs : processes;
  sh_status : result;
  sh_effects : list effect
}.

(** The start of [main].  [result status;] has no initialiser: the two
    fields hold whatever the stack held, here [garbage]. *)
Definition initial_shell (garbage : result) : shell :=
  {| sh_glob := initial_globals;
     sh_procs := createProcessArray;
     sh_status := garbage;
     sh_effects := [] |}.

(** [case STATUS_CODE]. *)
Definition status_text (status : result) : string :=
  if (sig status =? 0)%Z
  then line_of ("exit value " ++ decimal (code status))
  else line_of ("terminated by signal " ++ decimal (code status)).

(** What the outside supplies to one turn: the line read by [getline],
    the answers to the non-blocking waits of [cleanupProcs] and the
    answers to [spawnProcess]. *)
Record turn := mkTurn {
  typed : string;
  reap : waitpid_nohang;
  spawn : spawn_env
}.

(** The command of a turn once read and parsed: the flags after
    [displayBGMessage] and [parseArgs], and the argument vector. *)
Definition parsed (pid : Z) (t : turn) (g : globals) : list string * globals :=
  parseArgs pid (getArgs (strip_newline (typed t)))
    (fst (displayBGMessage g)).

(** One turn of [while(TRUE)]; [None] when the shell has called
    [exit(0)]. *)
Definition iteration (pid : Z) (t : turn) (sh : shell) : option shell :=
  let '(procs, finished) := cleanupProcs (reap t) (sh_procs sh) in
  let shown := snd (displayBGMessage (sh_glob sh)) in
  let '(args, g) := parsed pid t (sh_glob sh) in
  let before :=
    (sh_effects sh ++ map Done finished ++ map Stdout shown ++ [Stdout ":"])%list in
  let commandCode := isBuiltIn (head args) in
  if (commandCode =? CD_CODE)%Z then
    Some {| sh_glob := resetFlags g; sh_procs := procs;
            sh_status := sh_status sh;
            sh_effects := (before ++ [Chdir (args !! 1%nat)])%list |}
  else if (commandCode =? STATUS_CODE)%Z then
    Some {| sh_glob := resetFlags g; sh_procs := procs;
            sh_status := sh_status sh;
            sh_effects :=
              (before ++ [Stdout (status_text (sh_status sh))])%list |}
  else if (commandCode =? EXIT_CODE)%Z then None
  else if (commandCode =? COMMENT_CODE)%Z then
    Some {| sh_glob := resetFlags g; sh_procs := procs;
            sh_status := sh_status sh; sh_effects := before |}
  else
    let '(p, c) :=
      spawnProcess (spawn t) setInterrupts args procs (sh_status sh) g in
    Some {| sh_glob := resetFlags (p_glob p); sh_procs := p_procs p;
            sh_status := p_status p;
            sh_effects :=
              (before
               ++ match c with Some c => [Forked c] | None => [] end
               ++ map Stdout (p_printed p))%list |}.

(** The loop over the turns supplied; it ends with the last turn or
    with [exit]. *)
Fixpoint main_loop (pid : Z) (turns : list turn) (sh : shell) : shell :=
  match turns with
  | [] => sh
  | t :: turns' =>
      match iteration pid t sh with
      | Some sh' => main_loop pid turns' sh'
      | None => sh
      end
  end.

(** A turn completes a foreground command when its line is dispatched to
    [spawnProcess], [fork] succeeds, the background flag is off and the
    blocking wait reports an exit or a signal. *)
Definition completes_foreground (pid : Z) (t : turn) (sh : shell) : bool :=
  let '(args, g) := parsed pid t (sh_glob sh) in
  let commandCode := isBuiltIn (head args) in
  negb ((commandCode =? CD_CODE)%Z || (commandCode =? STATUS_CODE)%Z
        || (commandCode =? EXIT_CODE)%Z || (commandCode =? COMMENT_CODE)%Z)
  && negb (fork_pid (spawn t) =? -1)%Z
  && negb (backgroundFlag g)
  && match wait_results (spawn t) with WOther => false | _ => true end.

(** No turn of the run completes a foreground command. *)
Fixpoint no_foreground_yet (pid : Z) (turns : list turn) (sh : shell) : Prop :=
  match turns with
  | [] => True
  | t :: turns' =>
      completes_foreground pid t sh = false /\
      match iteration pid t sh with
      | Some sh' => no_foreground_yet pid turns' sh'
      | None => True
      end
  end.

(** A turn on which nothing has finished, [fork] returns 4321 and the
    child runs to a normal exit. *)
Definition turn_of (line : string) : turn :=
  {| typed := line_of line;
     reap := fun _ => (0, WOther);
     spawn := {| fork_pid := 4321; child_os := obliging;
                 wait_results := WExited 0 |} |}.

End Main.

(** ** Vocabulary of the statements *)

Module Words.

Import Parser.
Local Open Scope string_scope.

(** Every character of a string passes the test [p]. *)
Fixpoint all_chars (p : ascii -> bool) (s : string) : bool :=
  match s with
  | EmptyString => true
  | String c rest => p c && all_chars p rest
  end.

(** A digit or the minus sign. *)
Definition numeric (c : ascii) : bool :=
  ((48 <=? nat_of_ascii c)%nat && (nat_of_ascii c <=? 57)%nat)
  || (c =? "-")%char.

(** The two-character marker occurs somewhere in the string. *)
Fixpoint has_marker (s : string) : bool :=
  match s with
  | String c1 (String c2 _ as tl) =>
      ((c1 =? "$")%char && (c2 =? "$")%char) || has_marker tl
  | _ => false
  end.

(** The number of tokens equal to the background marker. *)
Fixpoint count_amps (l : list string) : nat :=
  match l with
  | [] => 0%nat
  | t :: tl => ((if (t =? "&")%string then 1 else 0) + count_amps tl)%nat
  end.

(** The number of tokens equal to the background marker that are not in
    the last position. *)
Fixpoint inner_amps (l : list string) : nat :=
  match l with
  | [] => 0%nat
  | t :: tl =>
      match tl with
      | [] => 0%nat
      | _ :: _ => ((if (t =? "&")%string then 1 else 0) + inner_amps tl)%nat
      end
  end.

(** An argument vector that the specification calls already reduced: no
    token [<], no token [>], and the last token is not [&]. *)
Definition reduced (args : list string) : Prop :=
  ~ In "<" args /\ ~ In ">" args /\ last args <> Some "&".

(** The line starts with a blank. *)
Definition starts_blank (s : string) : bool :=
  match s with
  | EmptyString => false
  | String c _ => is_blank c
  end.

(** The line ends with a blank. *)
Fixpoint ends_blank (s : string) : bool :=
  match s with
  | EmptyString => false
  | String c EmptyString => is_blank c
  | String _ rest => ends_blank rest
  end.

(** Two blanks follow each other somewhere in the line. *)
Fixpoint adjacent_blanks (s : string) : bool :=
  match s with
  | String c1 (String c2 _ as tl) =>
      (is_blank c1 && is_blank c2) || adjacent_blanks tl
  | _ => false
  end.

(** A line whose fields are all non-empty: it is not empty, has no blank
    at either end and no two blanks in a row. *)
Definition tidy (line : string) : Prop :=
  line <> EmptyString /\ starts_blank line = false /\ ends_blank line = false
  /\ adjacent_blanks line = false.

(** An upper bound on the turns that the loop of [parseArgs] still needs:
    two for a token that is exactly the marker, one for any other. *)
Fixpoint turns_left (l : list string) : nat :=
  match l with
  | [] => 0%nat
  | t :: tl => ((if (t =? "$$")%string then 2 else 1) + turns_left tl)%nat
  end.

(** The turns of the loop of [parseArgs], one constructor per branch of
    its body; [parse_iter_step] below shows that every turn of
    [parse_iter] is one of them. *)
Inductive parse_step (pid : Z) : parse_state -> parse_state -> Prop :=
| step_input k w tl g :
    isWord (Some w) = true ->
    parse_step pid (mkParse k ("<" :: w :: tl) g) (mkParse k tl (set_input w g))
| step_input_kept k tl g :
    isWord (head tl) = false ->
    parse_step pid (mkParse k ("<" :: tl) g) (mkParse (k ++ ["<"]) tl g)
| step_output k w tl g :
    isWord (Some w) = true ->
    parse_step pid (mkParse k (">" :: w :: tl) g) (mkParse k tl (set_output w g))
| step_output_kept k tl g :
    isWord (head tl) = false ->
    parse_step pid (mkParse k (">" :: tl) g) (mkParse (k ++ [">"]) tl g)
| step_marker k tl g :
    parse_step pid (mkParse k ("$$" :: tl) g) (mkParse k (pidString pid :: tl) g)
| step_background k g :
    parse_step pid (mkParse k ["&"] g)
      (mkParse k [] (set_backgroundFlag (background_allowed g) g))
| step_amp_kept k t tl g :
    parse_step pid (mkParse k ("&" :: t :: tl) g) (mkParse (k ++ ["&"]) (t :: tl) g)
| step_word k t tl g :
    t <> "<" -> t <> ">" -> t <> "$$" -> t <> "&" ->
    parse_step pid (mkParse k (t :: tl) g)
      (mkParse (k ++ [replaceDoubleDollars pid t]) tl g).

End Words.

(** ** Small helpers of the source *)

Module Helpers.

Import ModeController Main.
Local Open Scope string_scope.

(** The terminator of a C string. *)
Definition NUL : ascii := "000"%char.

(** The conversion of an [int] stored into a [char]. *)
Definition char_of_int (z : Z) : ascii := ascii_of_N (Z.to_N (z mod 256)).

(** [stringFromInt]: [string] is the buffer written to.  One character is
    stored for a value below 10, two otherwise; nothing else in the buffer
    changes and no terminator is written.  [%] and [/] of C truncate
    towards zero. *)
Definition stringFromInt (value : Z) (string : list ascii) : list ascii :=
  let ones := Z.rem value 10 in
  let tens := Z.quot value 10 in
  if (value <? 10)%Z
  then <[0%nat := char_of_int (ones + 48)]> string
  else <[1%nat := char_of_int (ones + 48)]>
         (<[0%nat := char_of_int (tens + 48)]> string).

(** [getStringLength]: the number of characters before the first
    terminator; [None] when the memory given holds no terminator. *)
Fixpoint getStringLength (string : list ascii) : option Z :=
  match string with
  | [] => None
  | c :: rest =>
      if (c =? NUL)%char then Some 0%Z
      else option_map (fun len => (len + 1)%Z) (getStringLength rest)
  end.

(** The C string held by a buffer: its characters up to the first
    terminator. *)
Fixpoint string_in (buffer : list ascii) : string :=
  match buffer with
  | [] => EmptyString
  | c :: rest =>
      if (c =? NUL)%char then EmptyString else String c (string_in rest)
  end.

(** The body of the [while] of [prompt], once for every [getline] that
    returned -1. *)
Fixpoint prompt_again (failed : nat) (g : globals) : globals * list string :=
  match failed with
  | O => (g, [])
  | S failed' =>
      let '(g1, shown) := displayBGMessage g in
      let '(g2, later) := prompt_again failed' g1 in
      (g2, (shown ++ [":"] ++ later)%list)
  end.

(** [prompt]: what is written before the line is obtained, and the line
    without its line feed.  [failed] is the number of calls of [getline]
    that return -1 before one returns [raw]. *)
Definition prompt (failed : nat) (raw : string) (g : globals)
  : globals * list string * string :=
  let '(g1, shown) := displayBGMessage g in
  let '(g2, later) := prompt_again failed g1 in
  (g2, (shown ++ [":"] ++ later)%list, strip_newline raw).

End Helpers.

(** ** Vocabulary of the further statements *)

Module Terms.

Import Parser Registry Spawner ModeController Main.
Local Open Scope string_scope.

(** The line with every tab turned into a space. *)
Fixpoint tabs_to_spaces (s : string) : string :=
  match s with
  | EmptyString => EmptyString
  | String c rest =>
      String (if is_blank c then " "%char else c) (tabs_to_spaces rest)
  end.

(** The tokens put together again, one space between two of them. *)
Fixpoint join_space (l : list string) : string :=
  match l with
  | [] => EmptyString
  | t :: tl =>
      match tl with
      | [] => t
      | _ :: _ => t ++ " " ++ join_space tl
      end
  end.

(** The number of spaces and tabs of a line. *)
Fixpoint count_blanks (s : string) : nat :=
  match s with
  | EmptyString => 0%nat
  | String c rest => ((if is_blank c then 1 else 0) + count_blanks rest)%nat
  end.

Definition not_blank (c : ascii) : bool := negb (is_blank c).

(** The characters of a line before its first space or tab. *)
Fixpoint first_field (s : string) : string :=
  match s with
  | EmptyString => EmptyString
  | String c rest =>
      if is_blank c then EmptyString else String c (first_field rest)
  end.

Definition not_LF (c : ascii) : bool := negb (c =? "010")%char.

Definition not_NUL (c : ascii) : bool := negb (c =? "000")%char.

(** The mode has not been announced yet: 1 when the two mode flags
    differ, 0 when they agree. *)
Definition unannounced (g : globals) : nat :=
  if Bool.eqb (background_allowed g) (previous_background_allowed g)
  then 0%nat else 1%nat.

(** The words that follow a token [op] in a token list, in order: the
    file names that a redirection operator is given. *)
Fixpoint redirect_targets (op : string) (l : list string) : list string :=
  match l with
  | t :: (w :: _) as tl =>
      if (t =? op) && isWord (Some w)
      then w :: redirect_targets op tl
      else redirect_targets op tl
  | _ => []
  end.

(** The number of deliveries of the suspend signal among the events. *)
Fixpoint count_sigtstp (events : list event) : nat :=
  match events with
  | [] => 0%nat
  | Sigtstp :: events' => S (count_sigtstp events')
  | _ :: events' => count_sigtstp events'
  end.

(** The value returned by [fork] in the parent is -1 or the pid of a new
    process, which is positive and differs from the pid of every job
    still registered. *)
Definition fresh_fork (t : turn) (procs : processes) : Prop :=
  fork_pid (spawn t) = (-1)%Z \/
  ((0 < fork_pid (spawn t))%Z /\ ~ In (fork_pid (spawn t)) (enumerate procs)).

(** A run in which the system answers every turn as it should: each
    non-blocking wait answers for the pid asked, and [fork] returns a
    fresh pid. *)
Fixpoint well_served (pid : Z) (turns : list turn) (sh : shell) : Prop :=
  match turns with
  | [] => True
  | t :: turns' =>
      answers_asked (reap t) /\
      fresh_fork t (fst (cleanupProcs (reap t) (sh_procs sh))) /\
      match iteration pid t sh with
      | Some sh' => well_served pid turns' sh'
      | None => True
      end
  end.

(** The effects of a turn that runs no command: the jobs reaped, the
    pending notice and the prompt. *)
Definition idle_effects (t : turn) (sh : shell) : list effect :=
  (sh_effects sh
   ++ map Done (snd (cleanupProcs (reap t) (sh_procs sh)))
   ++ map Stdout (snd (displayBGMessage (sh_glob sh)))
   ++ [Stdout ":"])%list.

End Terms.

(** * Properties *)

Import Parser Registry Spawner ModeController Main Words.

(** ** Decimal text *)

Lemma uint_text_numeric (d : Decimal.uint) :
  all_chars numeric (NilEmpty.string_of_uint d) = true.
Proof. induction d; simpl; auto. Qed.

Lemma decimal_numeric (n : Z) : all_chars numeric (decimal n) = true.
Proof.
  unfold decimal, NilZero.string_of_int, NilZero.string_of_uint.
  destruct (Z.to_int n) as [d | d].
  - destruct d; try reflexivity; apply (uint_text_numeric (_ _)).
  - change (all_chars numeric (String "-" (match d with
             | Decimal.Nil => "0"%string
             | _ => NilEmpty.string_of_uint d end)) = true).
    simpl. destruct d; try reflexivity; apply (uint_text_numeric (_ _)).
Qed.

Lemma decimal_nonempty (n : Z) : decimal n <> EmptyString.
Proof.
  unfold decimal, NilZero.string_of_int, NilZero.string_of_uint.
  destruct (Z.to_int n) as [d | d]; destruct d; discriminate.
Qed.

(** A string made of digits and minus signs is none of the tokens that
    [parseArgs] singles out and holds no marker. *)
Lemma numeric_plain (s : string) :
  all_chars numeric s = true ->
  s <> "<"%string /\ s <> ">"%string /\ s <> "$$"%string /\ s <> "&"%string
  /\ has_marker s = false.
Proof.
  intros H. repeat split; try (intros ->; discriminate H).
  induction s as [| c1 s IH]; [reflexivity |].
  destruct s as [| c2 s']; [reflexivity |].
  simpl in H. apply andb_prop in H as [H1 H2].
  change (((c1 =? "$")%char && (c2 =? "$")%char
           || has_marker (String c2 s')) = false).
  destruct (Ascii.eqb_spec c1 "$") as [-> |]; [discriminate H1 |].
  simpl. apply IH. exact H2.
Qed.

(** ** The loop of [parseArgs] *)

Section ParseLoop.

Variable pid : Z.

Lemma pidString_plain :
  pidString pid <> "<"%string /\ pidString pid <> ">"%string
  /\ pidString pid <> "$$"%string /\ pidString pid <> "&"%string
  /\ has_marker (pidString pid) = false.
Proof. apply numeric_plain, decimal_numeric. Qed.

Lemma pidString_nonempty : pidString pid <> EmptyString.
Proof. apply decimal_nonempty. Qed.

Lemma allowed_flag (b : bool) : (if b then true else false) = b.
Proof. destruct b; reflexivity. Qed.

(** Every turn of [parse_iter] is a turn of [parse_step]. *)
Lemma parse_iter_step (st st' : parse_state) :
  parse_iter pid st = Some st' -> parse_step pid st st'.
Proof.
  destruct st as [k p g]. unfold parse_iter, argsFilterDown.
  cbn [pending kept glob].
  destruct p as [| t tl]; [discriminate |].
  destruct (String.eqb_spec t "<") as [-> | Hin].
  { destruct tl as [| w tl'].
    - intros [= <-]. now apply step_input_kept.
    - destruct (isWord (Some w)) eqn:Hw; intros [= <-].
      + now apply step_input.
      + now apply step_input_kept. }
  destruct (String.eqb_spec t ">") as [-> | Hout].
  { destruct tl as [| w tl'].
    - intros [= <-]. now apply step_output_kept.
    - destruct (isWord (Some w)) eqn:Hw; intros [= <-].
      + now apply step_output.
      + now apply step_output_kept. }
  destruct (String.eqb_spec t "$$") as [-> | Hmark].
  { intros [= <-]. apply step_marker. }
  destruct (String.eqb_spec t "&") as [-> | Hamp].
  { destruct tl as [| w tl']; intros [= <-].
    - rewrite allowed_flag. apply step_background.
    - apply step_amp_kept. }
  intros [= <-]. now apply step_word.
Qed.

Lemma parse_iter_done (st : parse_state) :
  parse_iter pid st = None <-> pending st = [].
Proof.
  destruct st as [k p g]. unfold parse_iter, argsFilterDown.
  cbn [pending kept glob].
  destruct p as [| t tl]; [tauto |].
  split; [| discriminate].
  repeat match goal with
         | |- context [if ?b then _ else _] => destruct b
         | |- context [match ?l with [] => _ | _ :: _ => _ end] => destruct l
         end; discriminate.
Qed.

(** A property kept by every turn holds when the loop stops. *)
Lemma parse_loop_invariant (P : parse_state -> Prop) :
  (forall st st', P st -> parse_step pid st st' -> P st') ->
  forall fuel st, P st -> P (parse_loop pid fuel st).
Proof.
  intros Hstep fuel. induction fuel as [| fuel IH]; intros st HP; simpl.
  - destruct (parse_iter pid st); exact HP.
  - destruct (parse_iter pid st) as [st' |] eqn:Hit; [| exact HP].
    apply IH. apply (Hstep st); [exact HP | now apply parse_iter_step].
Qed.

Lemma parse_step_turns (st st' : parse_state) :
  parse_step pid st st' ->
  (turns_left (pending st') < turns_left (pending st))%nat.
Proof.
  destruct pidString_plain as (_ & _ & Hm & _).
  intros H. destruct H; simpl;
    repeat match goal with
           | |- context [String.eqb ?a ?b] => destruct (String.eqb_spec a b)
           end; try lia; congruence.
Qed.

Lemma turns_left_bound (l : list string) :
  (turns_left l <= 2 * List.length l)%nat.
Proof.
  induction l as [| t tl IH]; simpl; [lia |].
  destruct (String.eqb t "$$"); lia.
Qed.

Lemma parse_loop_completes (fuel : nat) (st : parse_state) :
  (turns_left (pending st) <= fuel)%nat ->
  pending (parse_loop pid fuel st) = [].
Proof.
  revert st. induction fuel as [| fuel IH]; intros st Hle; simpl.
  - destruct (parse_iter pid st) as [st' |] eqn:Hit.
    + apply parse_iter_step, parse_step_turns in Hit. lia.
    + now apply parse_iter_done.
  - destruct (parse_iter pid st) as [st' |] eqn:Hit.
    + apply IH. apply parse_iter_step, parse_step_turns in Hit. lia.
    + now apply parse_iter_done.
Qed.

(** The fuel given by [parseArgs] lets the loop reach its exit: no token
    is left to examine. *)
Lemma parseArgs_completes (args : list string) (g : globals) :
  pending (parseArgs_state pid args g) = [].
Proof.
  unfold parseArgs_state. apply parse_loop_completes. simpl.
  apply turns_left_bound.
Qed.

End ParseLoop.

(** ** Directive parsing of an argument vector already reduced *)

Lemma replaceDoubleDollars_no_marker (pid : Z) (arg : string) :
  has_marker arg = false -> replaceDoubleDollars pid arg = arg.
Proof.
  induction arg as [| c1 s IH]; [reflexivity |].
  destruct s as [| c2 s']; [reflexivity |].
  intros H.
  change (((c1 =? "$")%char && (c2 =? "$")%char
           || has_marker (String c2 s')) = false) in H.
  apply orb_false_elim in H as [H1 H2].
  change ((if (c1 =? "$")%char && (c2 =? "$")%char
           then (pidString pid ++ s')%string
           else String c1 (replaceDoubleDollars pid (String c2 s')))
          = String c1 (String c2 s')).
  rewrite H1, (IH H2). reflexivity.
Qed.

Lemma reduced_tail (t : string) (tl : list string) :
  reduced (t :: tl) -> tl <> [] -> reduced tl.
Proof.
  intros (Hin & Hout & Hlast) Hne. repeat split.
  - intros H. apply Hin. now right.
  - intros H. apply Hout. now right.
  - destruct tl as [| t' tl']; [congruence |].
    now rewrite last_cons_cons in Hlast.
Qed.

(** C9, as amended.  An argument vector with no token [<], no token [>],
    no trailing [&] and no token that contains the marker [$$] comes out
    of directive parsing as it went in, and every global, the redirection
    and background state included, is left as it was. *)
Theorem parseArgs_reduced_unchanged (pid : Z) (args : list string)
    (g : globals) :
  reduced args ->
  Forall (fun t => has_marker t = false) args ->
  parseArgs pid args g = (args, g).
Proof.
  intros Hred Hmark.
  pose (P := fun st : parse_state =>
    (kept st ++ pending st = args)%list /\ glob st = g /\
    (pending st <> [] -> reduced (pending st)) /\
    Forall (fun t => has_marker t = false) (pending st)).
  assert (HP : P (parseArgs_state pid args g)).
  { unfold parseArgs_state. apply (parse_loop_invariant pid P).
    - intros st st' (Hcat & Hg & Hr & Hm) Hstep. unfold P.
      destruct Hstep; cbn [kept pending glob] in *;
        specialize (Hr ltac:(discriminate));
        pose proof Hr as (Hin & Hout & Hlast);
        inversion Hm as [| ? ? Hhead Htail]; subst.
      + exfalso. apply Hin. now left.
      + exfalso. apply Hin. now left.
      + exfalso. apply Hout. now left.
      + exfalso. apply Hout. now left.
      + discriminate Hhead.
      + exfalso. now apply Hlast.
      + rewrite <- app_assoc.
        split; [reflexivity | split; [reflexivity | split; [| exact Htail]]].
        intros Hne. now apply (reduced_tail "&").
      + rewrite (replaceDoubleDollars_no_marker _ _ Hhead).
        rewrite <- app_assoc.
        split; [reflexivity | split; [reflexivity | split; [| exact Htail]]].
        intros Hne. now apply (reduced_tail t).
    - unfold P. cbn [kept pending glob].
      split; [reflexivity | split; [reflexivity | split; [| exact Hmark]]].
      intros _. exact Hred. }
  destruct HP as (Hcat & Hg & _ & _).
  pose proof (parseArgs_completes pid args g) as Hdone.
  rewrite Hdone, app_nil_r in Hcat.
  unfold parseArgs. cbv zeta. now rewrite Hcat, Hg.
Qed.

Lemma parseArgs_reduced_unchanged_witness :
  parseArgs 1234 ["ls"%string; "-l"%string; "&"%string; "x"%string]
    initial_globals
  = (["ls"%string; "-l"%string; "&"%string; "x"%string], initial_globals).
Proof.
  apply (parseArgs_reduced_unchanged 1234
           ["ls"%string; "-l"%string; "&"%string; "x"%string]
           initial_globals).
  - unfold reduced. simpl. repeat split; intros H;
      repeat (destruct H as [H | H]; try discriminate H); try discriminate H;
      exact H.
  - repeat constructor.
Defined.

(** C9, as stated, fails: the vector [echo $$] has no [<], no [>] and no
    trailing [&], and parsing rewrites its second token. *)
Lemma parseArgs_reduced_rewrites_marker :
  reduced ["echo"%string; "$$"%string] /\
  fst (parseArgs 1234 ["echo"%string; "$$"%string] initial_globals)
  = ["echo"%string; "1234"%string] /\
  fst (parseArgs 1234 ["echo"%string; "$$"%string] initial_globals)
  <> ["echo"%string; "$$"%string].
Proof.
  split; [| split].
  - unfold reduced. simpl. repeat split; intros H;
      repeat (destruct H as [H | H]; try discriminate H); try discriminate H;
      exact H.
  - reflexivity.
  - discriminate.
Qed.

(** ** The background marker *)

Lemma replaceDoubleDollars_empty (pid : Z) (arg : string) :
  replaceDoubleDollars pid arg = EmptyString -> arg = EmptyString.
Proof.
  destruct arg as [| c1 [| c2 rest]]; try (simpl; congruence).
  change ((if (c1 =? "$")%char && (c2 =? "$")%char
           then (pidString pid ++ rest)%string
           else String c1 (replaceDoubleDollars pid (String c2 rest)))
          = EmptyString -> String c1 (String c2 rest) = EmptyString).
  destruct ((c1 =? "$")%char && (c2 =? "$")%char); [| discriminate].
  pose proof (pidString_nonempty pid) as Hne.
  destruct (pidString pid); [congruence | discriminate].
Qed.

Lemma replaceDoubleDollars_not_amp (pid : Z) (arg : string) :
  arg <> "&"%string -> replaceDoubleDollars pid arg <> "&"%string.
Proof.
  destruct arg as [| c1 [| c2 rest]]; try (simpl; congruence).
  intros _.
  change ((if (c1 =? "$")%char && (c2 =? "$")%char
           then (pidString pid ++ rest)%string
           else String c1 (replaceDoubleDollars pid (String c2 rest)))
          <> "&"%string).
  destruct ((c1 =? "$")%char && (c2 =? "$")%char).
  - pose proof (decimal_numeric pid) as Hnum.
    pose proof (pidString_nonempty pid) as Hne.
    unfold pidString in *. destruct (decimal pid) as [| d r]; [congruence |].
    simpl in Hnum. apply andb_prop in Hnum as [Hd _].
    simpl. intros [= -> _]. discriminate Hd.
  - intros [= _ H].
    change (replaceDoubleDollars pid (String c2 rest) = EmptyString) in H.
    apply replaceDoubleDollars_empty in H. discriminate H.
Qed.

Lemma count_amps_app (l1 l2 : list string) :
  count_amps (l1 ++ l2) = (count_amps l1 + count_amps l2)%nat.
Proof. induction l1 as [| t l1 IH]; simpl; [reflexivity | rewrite IH; lia]. Qed.

Lemma isWord_not_amp (w : string) : isWord (Some w) = true -> w <> "&"%string.
Proof. intros H ->. discriminate H. Qed.

(** C4, as amended.  With the flag reset, as it is when a line is parsed:
    the background flag is set exactly when the last token is [&] and
    background execution is allowed; every [&] that is not the last token
    stays in the argument vector, and the last token, when it is [&], does
    not (the vector holds as many [&] as there are before the last
    position), whether or not background execution is allowed. *)
Theorem parseArgs_background (pid : Z) (args : list string) (g : globals) :
  backgroundFlag g = false ->
  (backgroundFlag (snd (parseArgs pid args g)) = true <->
     last args = Some "&"%string /\ background_allowed g = true) /\
  count_amps (fst (parseArgs pid args g)) = inner_amps args.
Proof.
  intros Hreset.
  destruct (pidString_plain pid) as (_ & _ & _ & Hpid & _).
  pose (P := fun st : parse_state =>
    background_allowed (glob st) = background_allowed g /\
    (count_amps (kept st) + inner_amps (pending st))%nat = inner_amps args /\
    match pending st with
    | [] => backgroundFlag (glob st) = true <->
            last args = Some "&"%string /\ background_allowed g = true
    | _ :: _ => backgroundFlag (glob st) = false /\
                (last (pending st) = Some "&"%string <->
                 last args = Some "&"%string)
    end).
  assert (HP : P (parseArgs_state pid args g)).
  { unfold parseArgs_state. apply (parse_loop_invariant pid P).
    - intros st st' (Hallow & Hcount & Hlast) Hstep. unfold P.
      destruct Hstep;
        cbn [kept pending glob backgroundFlag background_allowed
             set_input set_output set_backgroundFlag] in *;
        rewrite ?count_amps_app; destruct Hlast as [Hflag Hlast].
      + apply isWord_not_amp in H.
        split; [exact Hallow | split].
        * rewrite <- Hcount. destruct tl; simpl;
            destruct (String.eqb_spec w "&"); try lia; congruence.
        * destruct tl as [| t' tl'].
          -- simpl in Hlast. split; [congruence |].
             intros [Hl _]. apply Hlast in Hl. congruence.
          -- simpl in *. tauto.
      + split; [exact Hallow | split].
        * rewrite <- Hcount. destruct tl; simpl; lia.
        * destruct tl as [| t' tl'].
          -- simpl in Hlast. split; [congruence |].
             intros [Hl _]. apply Hlast in Hl. discriminate Hl.
          -- simpl in *. tauto.
      + apply isWord_not_amp in H.
        split; [exact Hallow | split].
        * rewrite <- Hcount. destruct tl; simpl;
            destruct (String.eqb_spec w "&"); try lia; congruence.
        * destruct tl as [| t' tl'].
          -- simpl in Hlast. split; [congruence |].
             intros [Hl _]. apply Hlast in Hl. congruence.
          -- simpl in *. tauto.
      + split; [exact Hallow | split].
        * rewrite <- Hcount. destruct tl; simpl; lia.
        * destruct tl as [| t' tl'].
          -- simpl in Hlast. split; [congruence |].
             intros [Hl _]. apply Hlast in Hl. discriminate Hl.
          -- simpl in *. tauto.
      + split; [exact Hallow | split].
        * rewrite <- Hcount. destruct tl; simpl;
            destruct (String.eqb_spec (pidString pid) "&"); try lia; congruence.
        * split; [exact Hflag |]. destruct tl as [| t' tl'].
          -- simpl in *. split; intros Hl.
             ++ congruence.
             ++ apply Hlast in Hl. discriminate Hl.
          -- simpl in *. exact Hlast.
      + split; [exact Hallow | split].
        * rewrite <- Hcount. simpl. lia.
        * rewrite Hallow. simpl in Hlast. tauto.
      + split; [exact Hallow | split].
        * rewrite <- Hcount. simpl. lia.
        * split; [exact Hflag |]. simpl in *. exact Hlast.
      + pose proof (replaceDoubleDollars_not_amp pid t H2) as Hrdd.
        split; [exact Hallow | split].
        * rewrite <- Hcount. destruct tl; simpl;
            destruct (String.eqb_spec (replaceDoubleDollars pid t) "&");
            destruct (String.eqb_spec t "&"); try lia; congruence.
        * destruct tl as [| t' tl'].
          -- simpl in Hlast. split; [congruence |].
             intros [Hl _]. apply Hlast in Hl. congruence.
          -- simpl in *. tauto.
    - unfold P. cbn [kept pending glob].
      split; [reflexivity | split; [reflexivity |]].
      destruct args as [| t tl].
      + split; [congruence | intros [Hl _]; discriminate Hl].
      + split; [exact Hreset | tauto]. }
  destruct HP as (_ & Hcount & Hlast).
  pose proof (parseArgs_completes pid args g) as Hdone.
  rewrite Hdone in Hcount, Hlast. simpl in Hcount.
  unfold parseArgs. cbv zeta. cbn [fst snd].
  split; [exact Hlast | lia].
Qed.

Lemma parseArgs_background_witness :
  (backgroundFlag
     (snd (parseArgs 1234 ["sleep"%string; "5"%string; "&"%string]
             initial_globals)) = true <->
   last ["sleep"%string; "5"%string; "&"%string] = Some "&"%string /\
   background_allowed initial_globals = true) /\
  count_amps
    (fst (parseArgs 1234 ["sleep"%string; "5"%string; "&"%string]
            initial_globals))
  = inner_amps ["sleep"%string; "5"%string; "&"%string].
Proof.
  apply (parseArgs_background 1234 ["sleep"%string; "5"%string; "&"%string]
           initial_globals).
  reflexivity.
Defined.

(** C4, as stated, fails: when background execution is not allowed the
    flag stays off for [sleep 5 &], and the marker is not kept as an
    argument either. *)
Lemma parseArgs_drops_trailing_amp :
  parseArgs 1234 ["sleep"%string; "5"%string; "&"%string]
    (set_background_allowed false initial_globals)
  = (["sleep"%string; "5"%string],
     set_background_allowed false initial_globals) /\
  ~ In "&"%string
      (fst (parseArgs 1234 ["sleep"%string; "5"%string; "&"%string]
              (set_background_allowed false initial_globals))).
Proof.
  split; [reflexivity |].
  simpl. intros H.
  repeat (destruct H as [H | H]; try discriminate H). exact H.
Qed.

(** ** Empty fields *)

Lemma append_char_nonempty (w : string) (c : ascii) :
  (w ++ String c EmptyString)%string <> EmptyString.
Proof. destruct w; discriminate. Qed.

(** [getArgs] closes a word at every blank: an empty word comes out when
    the line is empty, starts or ends with a blank, or has two blanks in a
    row. *)
Lemma getArgs_loop_empty_field (s w : string) :
  In EmptyString (getArgs_loop s w) <->
  (w = EmptyString /\ (s = EmptyString \/ starts_blank s = true))
  \/ ends_blank s = true \/ adjacent_blanks s = true.
Proof.
  revert w. induction s as [| c r IH]; intros w.
  - simpl. split.
    + intros [H | []]. left. split; [congruence | now left].
    + intros [[H _] | [H | H]]; try discriminate H. left. congruence.
  - cbn [getArgs_loop starts_blank].
    assert (Hends : ends_blank (String c r)
                    = match r with
                      | EmptyString => is_blank c
                      | String _ _ => ends_blank r
                      end)
      by (destruct r; reflexivity).
    assert (Hadj : adjacent_blanks (String c r)
                   = is_blank c && starts_blank r || adjacent_blanks r)
      by (destruct r; [simpl; now rewrite andb_false_r | reflexivity]).
    rewrite Hends, Hadj. clear Hends Hadj.
    destruct (is_blank c) eqn:Hc.
    + cbn [In]. rewrite (IH EmptyString). cbn [andb].
      destruct r as [| c' r'].
      * simpl. split; [intros _; right; now left |].
        intros _. right. left. split; [reflexivity | now left].
      * split.
        -- intros [H | [[_ [H | H]] | [H | H]]].
           ++ left. split; [congruence | now right].
           ++ discriminate H.
           ++ right. right. now rewrite H.
           ++ right. now left.
           ++ right. right. rewrite H. apply orb_true_r.
        -- intros [[H _] | [H | H]].
           ++ left. congruence.
           ++ right. right. now left.
           ++ apply orb_prop in H as [H | H].
              ** right. left. split; [reflexivity | now right].
              ** right. right. now right.
    + rewrite (IH (w ++ String c EmptyString)%string). cbn [andb orb].
      pose proof (append_char_nonempty w c) as Hne.
      destruct r as [| c' r'].
      * simpl. split.
        -- intros [[H _] | [H | H]]; [contradiction | |]; discriminate H.
        -- intros [[_ [H | H]] | [H | H]]; discriminate H.
      * split.
        -- intros [[H _] | [H | H]]; [contradiction | |]; right; tauto.
        -- intros [[_ [H | H]] | [H | H]]; try discriminate H; right; tauto.
Qed.

Lemma getArgs_empty_field (line : string) :
  In EmptyString (getArgs line) <-> ~ tidy line.
Proof.
  unfold getArgs, tidy. rewrite getArgs_loop_empty_field.
  destruct line as [| c r].
  - split; [intros _ [H _]; congruence |].
    intros _. left. split; [reflexivity | now left].
  - destruct (starts_blank (String c r)), (ends_blank (String c r)),
      (adjacent_blanks (String c r)); split;
      try (intros _ (_ & H1 & H2 & H3); discriminate);
      try (intros _; tauto);
      try (intros [[_ [H | H]] | [H | H]]; discriminate H).
    all: intros H; exfalso; apply H; repeat split; discriminate.
Qed.

Lemma isWord_nonempty (w : string) : isWord (Some w) = true -> w <> EmptyString.
Proof. intros H ->. discriminate H. Qed.

(** Directive parsing neither drops nor makes an empty argument. *)
Lemma parseArgs_empty_field (pid : Z) (args : list string) (g : globals) :
  In EmptyString (fst (parseArgs pid args g)) <-> In EmptyString args.
Proof.
  pose (P := fun st : parse_state =>
    In EmptyString (kept st) \/ In EmptyString (pending st)
    <-> In EmptyString args).
  assert (HP : P (parseArgs_state pid args g)).
  { unfold parseArgs_state. apply (parse_loop_invariant pid P).
    - intros st st' HPst Hstep. unfold P in *.
      pose proof (pidString_nonempty pid) as Hpid.
      destruct Hstep; cbn [kept pending glob] in *;
        rewrite <- HPst; rewrite ?in_app_iff; cbn [In];
        try match goal with
            | Hw : isWord (Some _) = true |- _ => apply isWord_nonempty in Hw
            end;
        try (pose proof (replaceDoubleDollars_empty pid t));
        intuition (try congruence; try discriminate).
      subst. simpl. tauto.
    - unfold P. cbn [kept pending]. simpl. tauto. }
  unfold P in HP. rewrite parseArgs_completes in HP.
  unfold parseArgs. cbn [fst]. rewrite <- HP. simpl. tauto.
Qed.

(** C5, as amended.  [getArgs] splits at every single space or tab, so
    the reduced argument vector holds an empty element exactly when the
    line is empty, starts or ends with a blank, or has two blanks in a row;
    for every other line it holds none. *)
Theorem reduced_vector_empty_elements (pid : Z) (line : string) (g : globals) :
  ~ In EmptyString (fst (parseArgs pid (getArgs line) g)) <-> tidy line.
Proof.
  rewrite parseArgs_empty_field, getArgs_empty_field.
  split; [| tauto].
  intros H. unfold tidy in *.
  destruct line as [| c r]; [exfalso; apply H; intros [Hne _]; congruence |].
  destruct (starts_blank (String c r)), (ends_blank (String c r)),
    (adjacent_blanks (String c r));
    try (exfalso; apply H; intros (_ & H1 & H2 & H3); discriminate).
  repeat split; discriminate.
Qed.

(** C5, as stated, fails: two spaces in a row leave an empty element in
    the reduced argument vector. *)
Lemma double_space_leaves_empty_argument :
  fst (parseArgs 1234 (getArgs "ls  -l") initial_globals)
  = ["ls"%string; EmptyString; "-l"%string] /\
  In EmptyString (fst (parseArgs 1234 (getArgs "ls  -l") initial_globals)).
Proof. split; [reflexivity | simpl; tauto]. Qed.

(** ** The marker [$$] *)

(** What [replaceDoubleDollars] does do: the first occurrence of the
    marker in a token becomes the pid text and the characters around it
    are kept. *)
Lemma replaceDoubleDollars_first (pid : Z) (pre post : string) :
  has_marker (pre ++ "$")%string = false ->
  replaceDoubleDollars pid (pre ++ "$$" ++ post)%string
  = (pre ++ pidString pid ++ post)%string.
Proof.
  induction pre as [| c pre IH]; intros H; [reflexivity |].
  destruct pre as [| c2 pre'].
  - simpl in H. apply orb_false_elim in H as [H _].
    simpl. rewrite H. reflexivity.
  - change (((c =? "$")%char && (c2 =? "$")%char
             || has_marker (String c2 pre' ++ "$")%string) = false) in H.
    apply orb_false_elim in H as [H1 H2].
    change ((if (c =? "$")%char && (c2 =? "$")%char
             then (pidString pid ++ (pre' ++ "$$" ++ post))%string
             else String c (replaceDoubleDollars pid
                              (String c2 pre' ++ "$$" ++ post)%string))
            = String c (String c2 pre' ++ pidString pid ++ post)%string).
    rewrite H1, (IH H2). reflexivity.
Qed.

(** C3.  On the line [echo $$$$ < in$$] and with pid 1234 the shell keeps
    the argument [1234$$] and opens the file [in$$]: only the first marker
    of a token is replaced, and a redirection target is stored as typed. *)
Theorem marker_left_in_place :
  parseArgs 1234 (getArgs "echo $$$$ < in$$") initial_globals
  = (["echo"%string; "1234$$"%string],
     set_input "in$$" initial_globals).
Proof. reflexivity. Qed.

(** ** The child of [spawnProcess] *)

(** C1, as amended.  Whatever the command and whatever the shell does on
    SIGTSTP, the child sets SIGTSTP to be ignored before anything else, and
    it is still ignored after program replacement: the spawned program
    cannot be stopped from the terminal. *)
Theorem child_ignores_SIGTSTP (sys : os) (sigs : signals)
    (args : list string) (g : globals) :
  on_SIGTSTP (child_signals (spawnProcess_child sys sigs args g)) = SIG_IGN.
Proof.
  unfold spawnProcess_child.
  destruct (child_input sys g); [| reflexivity].
  destruct (sys_execvp sys args); reflexivity.
Qed.

(** C1, as stated, fails: the child of the plain command [ls] reaches
    program replacement with SIGTSTP ignored, not with the default
    action. *)
Lemma child_SIGTSTP_not_default :
  child_ended (spawnProcess_child obliging setInterrupts ["ls"%string]
                 initial_globals) = Exec ["ls"%string] /\
  on_SIGTSTP (child_signals
                (spawnProcess_child obliging setInterrupts ["ls"%string]
                   initial_globals)) <> SIG_DFL.
Proof. split; [reflexivity | discriminate]. Qed.

(** C2.  The child of [ls > /no/such/dir/out], when the file cannot be
    opened, prints nothing and goes on to program replacement with its
    standard output unchanged; the input path in the same situation stops
    with a message and [exit(1)]. *)
Theorem output_open_failure_unchecked :
  let child :=
    spawnProcess_child no_files setInterrupts ["ls"%string]
      (set_output "/no/such/dir/out" initial_globals) in
  child_ended child = Exec ["ls"%string] /\
  child_printed child = [] /\
  fd1 child = Inherited.
Proof. repeat split; reflexivity. Qed.

Lemma input_open_failure_checked (sys : os) (sigs : signals)
    (args : list string) (g : globals) :
  inputRedirectionFlag g = true ->
  sys_open sys (inputRedirectionFileName g) O_RDONLY = (-1) ->
  child_ended (spawnProcess_child sys sigs args g) = Exit 1 /\
  child_printed (spawnProcess_child sys sigs args g)
  = [line_of ("cannot open " ++ inputRedirectionFileName g ++ " for input")].
Proof.
  intros Hflag Hopen. unfold spawnProcess_child, child_input.
  rewrite Hflag, Hopen. split; reflexivity.
Qed.

(** The output path never stops the child: whatever [open] returns, the
    child reaches [execvp]. *)
Lemma output_never_stops_child (sys : os) (sigs : signals)
    (args : list string) (g : globals) :
  inputRedirectionFlag g = false ->
  sys_execvp sys args = None ->
  child_ended (spawnProcess_child sys sigs args g) = Exec args /\
  child_printed (spawnProcess_child sys sigs args g) = [].
Proof.
  intros Hflag Hexec. unfold spawnProcess_child, child_input.
  rewrite Hflag. destruct (backgroundFlag g); rewrite Hexec; split; reflexivity.
Qed.

(** ** The suspend signal and its notice *)

Lemma run_app (l1 l2 : list event) (g : globals) :
  run (l1 ++ l2) g
  = (fst (run l2 (fst (run l1 g))),
     (snd (run l1 g) ++ snd (run l2 (fst (run l1 g))))%list).
Proof.
  revert g. induction l1 as [| e l1 IH]; intros g.
  - simpl. now destruct (run l2 g).
  - simpl. destruct (step g e) as [g1 out1]. rewrite IH.
    destruct (run l1 g1) as [g2 out2]. simpl.
    now rewrite app_assoc.
Qed.

(** Signals delivered during a foreground wait write nothing; the mode
    ends up flipped when their number is odd. *)
Lemma signals_while_waiting (n : nat) (g : globals) :
  foregroundProcessRunning g = true ->
  run (repeat Sigtstp n) g
  = (set_background_allowed
       (if Nat.odd n then negb (background_allowed g) else background_allowed g)
       g, []).
Proof.
  revert g. induction n as [| n IH]; intros g Hfg.
  - destruct g. reflexivity.
  - cbn [repeat run step]. unfold shellCatchSIGTSTP.
    cbn [foregroundProcessRunning set_background_allowed]. rewrite Hfg.
    rewrite IH by exact Hfg.
    rewrite Nat.odd_succ, <- Nat.negb_odd.
    destruct g as [i o a p fi fo fb fg]. simpl.
    destruct (Nat.odd n), a; reflexivity.
Qed.

(** C6, as amended.  A suspend signal that arrives while no foreground
    job is blocking writes exactly one notice, that of the new mode, at
    once, and the next prompt display adds none.  Suspend signals that
    arrive while a foreground job is blocking write nothing; when the
    wait is over the next prompt display prints one notice, that of the
    new mode, if an odd number of them arrived since the last notice, and
    none if an even number did; the display after that prints none. *)
Theorem suspend_signal_notices (g : globals) (n : nat) :
  (foregroundProcessRunning g = false ->
   snd (shellCatchSIGTSTP g) = [(notice (negb (background_allowed g)) ++ ":")%string]
   /\ snd (displayBGMessage (fst (shellCatchSIGTSTP g))) = []) /\
  (foregroundProcessRunning g = true ->
   previous_background_allowed g = background_allowed g ->
   snd (run (repeat Sigtstp n) g) = []
   /\ snd (run (repeat Sigtstp n ++ [WaitEnds; Display]) g)
      = (if Nat.odd n then [notice (negb (background_allowed g))] else [])
   /\ snd (displayBGMessage
             (fst (run (repeat Sigtstp n ++ [WaitEnds; Display]) g))) = []).
Proof.
  split.
  - intros Hfg. unfold shellCatchSIGTSTP, displayBGMessage, notice.
    destruct g as [i o a p fi fo fb fg]. simpl in *. subst fg.
    destruct a; simpl; split; reflexivity.
  - intros Hfg Hsync. rewrite run_app, signals_while_waiting by exact Hfg.
    destruct g as [i o a p fi fo fb fg]. simpl in *. subst fg p.
    unfold displayBGMessage, notice.
    destruct (Nat.odd n), a; simpl; repeat split; reflexivity.
Qed.

Lemma suspend_signal_notices_witness :
  snd (shellCatchSIGTSTP initial_globals)
  = [(notice false ++ ":")%string] /\
  snd (run (repeat Sigtstp 1 ++ [WaitEnds; Display])
         (set_foregroundProcessRunning true initial_globals))
  = [notice false].
Proof.
  split.
  - apply (proj1 (suspend_signal_notices initial_globals 0)). reflexivity.
  - apply (proj2 (suspend_signal_notices
                    (set_foregroundProcessRunning true initial_globals) 1));
      reflexivity.
Defined.

(** C6, as stated, fails: in the state left by one suspend signal during
    a foreground wait, a second suspend signal during the same wait is not
    followed by any notice at the next prompt display. *)
Lemma second_signal_never_announced :
  let waiting :=
    fst (run [WaitBegins; Sigtstp] initial_globals) in
  foregroundProcessRunning waiting = true /\
  snd (run [Sigtstp; WaitEnds; Display] waiting) = [] /\
  ~ deferred_notice_always waiting.
Proof.
  split; [reflexivity | split; [reflexivity |]].
  intros H. destruct (H eq_refl) as [_ Hone]. discriminate Hone.
Qed.

(** ** The job registry *)

Section RegistryShape.

Implicit Types (l : list Z) (proc : processes).

(** A registry holds [l] exactly when its block is [l] followed by
    zeros. *)
Lemma holds_intro proc l (k : nat) :
  array proc = l ++ replicate k 0 ->
  capacity proc = Z.of_nat (List.length l + k) ->
  size proc = Z.of_nat (List.length l) ->
  0 < capacity proc ->
  Forall (fun x => x <> 0) l ->
  holds proc l.
Proof.
  intros Harr Hcap Hsize Hpos Hnz. unfold holds.
  rewrite Harr, Hcap, Hsize, Nat2Z.id.
  rewrite take_app_length, drop_app_length, length_app, length_replicate.
  repeat split; auto; try lia.
  f_equal. lia.
Qed.

Lemma holds_elim proc l :
  holds proc l ->
  exists k : nat,
    array proc = l ++ replicate k 0 /\
    capacity proc = Z.of_nat (List.length l + k) /\
    size proc = Z.of_nat (List.length l) /\
    0 < capacity proc /\
    Forall (fun x => x <> 0) l.
Proof.
  intros (Hpos & Hlen & Hsize & Htake & Hdrop & Hnz).
  exists (Z.to_nat (capacity proc - size proc)).
  rewrite <- (take_drop (Z.to_nat (size proc)) (array proc)) at 1.
  rewrite Htake, Hdrop. repeat split; auto.
  assert (Hle : (List.length l <= List.length (array proc))%nat).
  { rewrite <- Htake, length_take. lia. }
  lia.
Qed.

Lemma list_find_cons (P : Z -> Prop) `{forall x, Decision (P x)} (x : Z) l :
  list_find P (x :: l)
  = if decide (P x) then Some (0%nat, x)
    else prod_map S id <$> list_find P l.
Proof. reflexivity. Qed.

Lemma find_first_zero l (k : nat) :
  Forall (fun x => x <> 0) l ->
  list_find (fun x => x = 0) (l ++ replicate (S k) 0)
  = Some (List.length l, 0).
Proof.
  induction 1 as [| x l Hx Hl IH].
  - reflexivity.
  - cbn [app List.length]. rewrite list_find_cons.
    case_decide; [congruence |]. now rewrite IH.
Qed.

Lemma find_in_zeros (val : Z) (k : nat) :
  val <> 0 -> list_find (fun x => x = val) (replicate k 0) = None.
Proof.
  intros Hval. induction k as [| k IH]; [reflexivity |].
  cbn [replicate]. rewrite list_find_cons.
  case_decide; [congruence |]. now rewrite IH.
Qed.

(** The search and the shift of [processesRemove] on a block of that
    shape. *)
Lemma remove_shift (val : Z) l (k : nat) :
  val <> 0 ->
  match list_find (fun x => x = val) (l ++ replicate k 0) with
  | Some (i, _) =>
      In val l /\
      delete i (l ++ replicate k 0) ++ [0]
      = remove_first val l ++ replicate (S k) 0
  | None => ~ In val l /\ remove_first val l = l
  end.
Proof.
  intros Hval. induction l as [| x l IH].
  - cbn [app]. rewrite find_in_zeros by exact Hval. simpl. tauto.
  - cbn [app remove_first In]. rewrite list_find_cons.
    case_decide as Hx.
    + subst x. rewrite Z.eqb_refl. split; [now left |].
      cbn [delete list_delete]. rewrite <- app_assoc. f_equal.
      now rewrite replicate_S_end.
    + destruct (Z.eqb_spec x val) as [| _]; [contradiction |].
      destruct (list_find (fun x => x = val) (l ++ replicate k 0))
        as [[i y] |]; cbn [fmap option_fmap option_map prod_map fst snd id].
      * destruct IH as [Hin Heq]. split; [now right |].
        cbn [delete list_delete]. cbn [app]. f_equal. exact Heq.
      * destruct IH as [Hin Heq]. split; [tauto | now rewrite Heq].
Qed.

Lemma remove_first_length (val : Z) l :
  In val l -> S (List.length (remove_first val l)) = List.length l.
Proof.
  induction l as [| x l IH]; simpl; [tauto |].
  destruct (Z.eqb_spec x val) as [| Hne]; [reflexivity |].
  intros [H | H]; [contradiction |]. simpl. now rewrite IH.
Qed.

Lemma remove_first_nonzero (val : Z) l :
  Forall (fun x => x <> 0) l -> Forall (fun x => x <> 0) (remove_first val l).
Proof.
  induction 1 as [| x l Hx Hl IH]; simpl; [constructor |].
  destruct (x =? val); [exact Hl | now constructor].
Qed.

(** [processesAdd] of a non-zero pid puts it right after the jobs
    held. *)
Lemma processesAdd_holds proc l (val : Z) :
  holds proc l -> val <> 0 -> holds (processesAdd proc val) (l ++ [val]).
Proof.
  intros H Hval.
  destruct (holds_elim _ _ H) as (k & Harr & Hcap & Hsize & Hpos & Hnz).
  assert (Hnz' : Forall (fun x => x <> 0) (l ++ [val]))
    by (apply Forall_app; split; [exact Hnz | now constructor]).
  unfold processesAdd.
  destruct (Z.eqb_spec (capacity proc) (size proc)) as [Hfull | Hroom].
  - assert (k = 0%nat) by lia. subst k.
    set (grown := zero_from_size (doubleCapacity proc)).
    assert (Harr' : array grown
                    = l ++ replicate (S (pred (List.length l))) 0).
    { unfold grown, zero_from_size, doubleCapacity. cbn [capacity size array].
      rewrite Harr, Hsize, Nat2Z.id.
      change (replicate 0 0) with (@nil Z).
      rewrite app_nil_r, take_app_length. do 2 f_equal. lia. }
    assert (Hcap' : capacity grown = capacity proc * 2) by reflexivity.
    assert (Hsize' : size grown = size proc) by reflexivity.
    rewrite Harr', find_first_zero by exact Hnz.
    apply (holds_intro _ _ (pred (List.length l))); cbn [capacity size array];
      rewrite ?Harr', ?Hcap', ?Hsize'.
    + rewrite insert_app_r_alt, Nat.sub_diag by lia. simpl.
      now rewrite <- app_assoc.
    + rewrite length_app. simpl. lia.
    + rewrite length_app. simpl. lia.
    + lia.
    + exact Hnz'.
  - destruct k as [| k]; [lia |].
    rewrite Harr, find_first_zero by exact Hnz.
    apply (holds_intro _ _ k); cbn [capacity size array].
    + rewrite insert_app_r_alt, Nat.sub_diag by lia. simpl.
      now rewrite <- app_assoc.
    + rewrite length_app. simpl. lia.
    + rewrite length_app. simpl. lia.
    + lia.
    + exact Hnz'.
Qed.

(** [processesRemove] of a non-zero pid takes its first occurrence out
    and closes the gap. *)
Lemma processesRemove_holds proc l (val : Z) :
  holds proc l -> val <> 0 ->
  holds (processesRemove proc val) (remove_first val l).
Proof.
  intros H Hval.
  destruct (holds_elim _ _ H) as (k & Harr & Hcap & Hsize & Hpos & Hnz).
  unfold processesRemove. rewrite Harr.
  pose proof (remove_shift val l k Hval) as Hshift.
  destruct (list_find (fun x => x = val) (l ++ replicate k 0)) as [[i y] |].
  - destruct Hshift as [Hin Heq].
    pose proof (remove_first_length val l Hin) as Hlen.
    apply (holds_intro _ _ (S k)); cbn [capacity size array].
    + exact Heq.
    + lia.
    + lia.
    + lia.
    + now apply remove_first_nonzero.
  - destruct Hshift as [_ Heq]. rewrite Heq. exact H.
Qed.

Lemma createProcessArray_holds : holds createProcessArray [].
Proof. apply (holds_intro _ _ 10); try reflexivity. constructor. Qed.

(** Replaying admissible operations keeps the shape, and the jobs held
    are the live ones. *)
Lemma replay_holds (ops : list op) proc l :
  holds proc l -> admissible_from l ops ->
  holds (fold_left apply_op ops proc) (fold_left live_step ops l).
Proof.
  revert proc l. induction ops as [| o ops IH]; intros proc l H Hadm.
  - exact H.
  - destruct o as [pid | pid]; simpl in Hadm |- *.
    + destruct Hadm as (Hnz & _ & Hadm).
      apply IH; [| exact Hadm]. now apply processesAdd_holds.
    + destruct Hadm as (Hin & Hadm).
      apply IH; [| exact Hadm]. apply processesRemove_holds; [exact H |].
      destruct H as (_ & _ & _ & _ & _ & Hall).
      rewrite Forall_forall in Hall. apply Hall.
      now apply list_elem_of_In.
Qed.

Lemma holds_enumerate proc l : holds proc l -> enumerate proc = l.
Proof. intros (_ & _ & _ & Htake & _). exact Htake. Qed.

End RegistryShape.

(** ** The reaper *)

Lemma remove_first_middle (pid : Z) (done rest : list Z) :
  ~ In pid done -> remove_first pid (done ++ pid :: rest) = done ++ rest.
Proof.
  induction done as [| x done IH]; intros Hnot; simpl.
  - now rewrite Z.eqb_refl.
  - destruct (Z.eqb_spec x pid) as [-> | _]; [exfalso; apply Hnot; now left |].
    rewrite IH; [reflexivity |]. intros H. apply Hnot. now right.
Qed.

Lemma remove_first_NoDup (pid : Z) (l : list Z) :
  List.NoDup l -> List.NoDup (remove_first pid l).
Proof.
  induction 1 as [| x l Hx Hl IH]; simpl; [constructor |].
  destruct (x =? pid); [exact Hl |]. constructor; [| exact IH].
  intros Hin. apply Hx. clear -Hin.
  induction l as [| y l IHl]; simpl in *; [exact Hin |].
  destruct (y =? pid); [now right |].
  destruct Hin as [-> | Hin]; [now left | right; now apply IHl].
Qed.

Lemma live_NoDup (ops : list op) (l : list Z) :
  admissible_from l ops -> List.NoDup l ->
  List.NoDup (fold_left live_step ops l).
Proof.
  revert l. induction ops as [| o ops IH]; intros l Hadm Hl; [exact Hl |].
  destruct o as [pid | pid]; simpl in Hadm |- *.
  - destruct Hadm as (_ & Hfresh & Hadm). apply IH; [exact Hadm |].
    apply List.NoDup_rev in Hl. rewrite <- (rev_involutive (l ++ [pid])).
    apply List.NoDup_rev. rewrite rev_app_distr. simpl.
    constructor; [| exact Hl]. now rewrite <- in_rev.
  - destruct Hadm as (_ & Hadm). apply IH; [exact Hadm |].
    now apply remove_first_NoDup.
Qed.

(** The loop of [cleanupProcs], started at the slot that follows the jobs
    [done] already looked at, with a turn of fuel for every job [rest]
    still to look at: every job of [rest] is asked about, those that have
    finished are reported in order and taken out, the others stay. *)
Lemma cleanupProcs_loop_reaps (wait : waitpid_nohang) (rest : list Z) :
  answers_asked wait ->
  forall (done : list Z) (procs : processes) (printed : list reaped)
         (fuel : nat),
    holds procs (done ++ rest) ->
    List.NoDup (done ++ rest) ->
    (List.length rest <= fuel)%nat ->
    holds (fst (cleanupProcs_loop wait fuel (Z.of_nat (List.length done))
                  procs printed))
      (done ++ List.filter (still_running wait) rest) /\
    snd (cleanupProcs_loop wait fuel (Z.of_nat (List.length done))
           procs printed)
    = printed ++ map (report wait) (List.filter (finished wait) rest).
Proof.
  intros Hwait. induction rest as [| p rest IH];
    intros done procs printed fuel H Hnd Hfuel.
  - assert (Hsize : size procs = Z.of_nat (List.length done)).
    { destruct H as (_ & _ & Hs & _). now rewrite Hs, app_nil_r. }
    rewrite app_nil_r in *. simpl. rewrite app_nil_r.
    destruct fuel as [| fuel]; simpl; [now split |].
    rewrite <- Hsize, Z.ltb_irrefl. now split.
  - destruct fuel as [| fuel]; [simpl in Hfuel; lia |].
    destruct (holds_elim _ _ H) as (k & Harr & _ & Hsize & _ & Hnz).
    cbn [cleanupProcs_loop].
    assert (Hlt : (Z.of_nat (List.length done) <? size procs) = true).
    { apply Z.ltb_lt. rewrite Hsize, length_app. simpl. lia. }
    rewrite Hlt, Nat2Z.id, Harr, <- app_assoc. cbn [app].
    rewrite nth_middle.
    assert (Hp : p <> 0).
    { rewrite Forall_forall in Hnz. apply Hnz.
      apply list_elem_of_In, in_or_app. right. now left. }
    pose proof (Hwait p) as Hans.
    unfold still_running, finished, report. cbn [List.filter].
    destruct (wait p) as [pid results] eqn:Hwp. cbn [fst snd] in *.
    destruct (Z.ltb_spec 0 pid) as [Hpos | Hneg].
    + assert (pid = p) by lia. subst pid. cbn [negb map].
      pose proof (processesRemove_holds _ _ p H Hp) as H'.
      rewrite remove_first_middle in H'
        by (apply List.NoDup_remove_2 in Hnd; intros Hin; apply Hnd;
            apply in_or_app; now left).
      destruct (IH done (processesRemove procs p)
                  (printed ++ [mkReaped p results]) fuel H'
                  (List.NoDup_remove_1 _ _ _ Hnd)
                  ltac:(simpl in Hfuel; lia)) as [IH1 IH2].
      split; [exact IH1 |]. rewrite IH2, <- app_assoc, Hwp. reflexivity.
    + cbn [negb map].
      assert (Hnext : Z.of_nat (List.length done) + 1
                      = Z.of_nat (List.length (done ++ [p])))
        by (rewrite length_app; simpl; lia).
      rewrite Hnext.
      assert (Heq : (done ++ [p]) ++ rest = done ++ p :: rest)
        by now rewrite <- app_assoc.
      destruct (IH (done ++ [p]) procs printed fuel
                  ltac:(now rewrite Heq) ltac:(now rewrite Heq)
                  ltac:(simpl in Hfuel; lia)) as [IH1 IH2].
      rewrite <- app_assoc in IH1. split; [exact IH1 | exact IH2].
Qed.

(** [cleanupProcs] on a registry of distinct jobs: the fuel it is given
    is enough, the finished jobs are reported in order and removed, the
    running ones stay in place. *)
Lemma cleanupProcs_reaps (wait : waitpid_nohang) (procs : processes)
    (l : list Z) :
  answers_asked wait -> holds procs l -> List.NoDup l ->
  holds (fst (cleanupProcs wait procs)) (List.filter (still_running wait) l) /\
  snd (cleanupProcs wait procs)
  = map (report wait) (List.filter (finished wait) l).
Proof.
  intros Hwait H Hnd. unfold cleanupProcs.
  assert (Hsize : Z.to_nat (size procs) = List.length l).
  { destruct H as (_ & _ & Hs & _). rewrite Hs. apply Nat2Z.id. }
  rewrite Hsize.
  exact (cleanupProcs_loop_reaps wait l Hwait [] procs [] (List.length l)
           H Hnd (Nat.le_refl _)).
Qed.

(** C8.  After any admissible sequence of operations (adds of non-zero
    pids that are not alive, removes of pids that are) the live pids, in
    the order they were added, fill the first [size] slots of the block
    and every later slot is 0; the slots that [cleanupProcs] reads are
    exactly the live pids, and its loop asks about each of them: whatever
    the answers, it reports every live job that has finished, removes it,
    and leaves the running ones in a registry of the same shape. *)
Theorem registry_prefix_invariant (ops : list op) :
  admissible ops ->
  holds (run_ops ops) (live_after ops) /\
  enumerate (run_ops ops) = live_after ops /\
  (forall wait : waitpid_nohang,
     answers_asked wait ->
     snd (cleanupProcs wait (run_ops ops))
     = map (report wait) (List.filter (finished wait) (live_after ops)) /\
     holds (fst (cleanupProcs wait (run_ops ops)))
       (List.filter (still_running wait) (live_after ops))).
Proof.
  intros Hadm.
  assert (H : holds (run_ops ops) (live_after ops)).
  { unfold run_ops, live_after.
    apply replay_holds; [apply createProcessArray_holds | exact Hadm]. }
  split; [exact H | split; [now apply holds_enumerate |]].
  intros wait Hwait.
  assert (Hnd : List.NoDup (live_after ops))
    by (apply live_NoDup; [exact Hadm | constructor]).
  destruct (cleanupProcs_reaps wait _ _ Hwait H Hnd) as [H1 H2].
  split; [exact H2 | exact H1].
Qed.

Lemma registry_prefix_invariant_witness :
  holds (run_ops [Add 5; Add 7; Remove 5; Add 9])
    (live_after [Add 5; Add 7; Remove 5; Add 9]) /\
  enumerate (run_ops [Add 5; Add 7; Remove 5; Add 9])
  = live_after [Add 5; Add 7; Remove 5; Add 9].
Proof.
  destruct (registry_prefix_invariant [Add 5; Add 7; Remove 5; Add 9])
    as (H1 & H2 & _).
  - unfold admissible. simpl.
    repeat split; try lia; try tauto; intros H;
      repeat (destruct H as [H | H]; try lia); exact H.
  - split; [exact H1 | exact H2].
Defined.

(** C7.  From the empty registry, adding two distinct non-zero pids and
    removing the first leaves exactly the second to enumerate; and an add
    into a full registry doubles the capacity, which grows strictly, and
    leaves every job held before enumerable, the new one after them. *)
Theorem registry_add_remove_growth :
  (forall p1 p2 : Z, p1 <> 0 -> p2 <> 0 -> p1 <> p2 ->
     enumerate (run_ops [Add p1; Add p2; Remove p1]) = [p2]) /\
  (forall (proc : processes) (l : list Z) (val : Z),
     holds proc l -> size proc = capacity proc -> val <> 0 ->
     capacity (processesAdd proc val) = 2 * capacity proc /\
     capacity proc < capacity (processesAdd proc val) /\
     enumerate (processesAdd proc val) = enumerate proc ++ [val]).
Proof.
  split.
  - intros p1 p2 H1 H2 H12.
    assert (H : holds (run_ops [Add p1; Add p2; Remove p1])
                  (live_after [Add p1; Add p2; Remove p1])).
    { unfold run_ops, live_after.
      apply replay_holds; [apply createProcessArray_holds |].
      simpl.
      split; [exact H1 | split; [tauto | split; [exact H2 | split]]].
      - intros [H | []]. congruence.
      - split; [now left | exact I]. }
    apply holds_enumerate in H. rewrite H.
    unfold live_after. simpl. now rewrite Z.eqb_refl.
  - intros proc l val H Hfull Hval.
    pose proof (processesAdd_holds proc l val H Hval) as H'.
    assert (Hcap : capacity (processesAdd proc val) = 2 * capacity proc).
    { unfold processesAdd. rewrite Hfull, Z.eqb_refl.
      destruct (list_find _ _) as [[i y] |]; cbn [capacity];
        unfold zero_from_size, doubleCapacity; cbn [capacity]; lia. }
    rewrite (holds_enumerate _ _ H). destruct H as (Hpos & _).
    split; [exact Hcap | split; [lia | now apply holds_enumerate]].
Qed.

Lemma registry_add_remove_growth_witness :
  enumerate (run_ops [Add 5; Add 7; Remove 5]) = [7] /\
  capacity (processesAdd
              (run_ops [Add 1; Add 2; Add 3; Add 4; Add 5;
                        Add 6; Add 7; Add 8; Add 9; Add 10]) 11) = 20.
Proof.
  split.
  - apply (proj1 registry_add_remove_growth 5 7); lia.
  - apply (proj2 registry_add_remove_growth
             (run_ops [Add 1; Add 2; Add 3; Add 4; Add 5;
                       Add 6; Add 7; Add 8; Add 9; Add 10])
             [1; 2; 3; 4; 5; 6; 7; 8; 9; 10] 11).
    + unfold holds. vm_compute. repeat split; try reflexivity.
      repeat constructor; discriminate.
    + reflexivity.
    + lia.
Defined.

(** ** The result read by [status] *)

(** Only a completed foreground command writes [status]. *)
Lemma iteration_status (pid : Z) (t : turn) (sh sh' : shell) :
  completes_foreground pid t sh = false ->
  iteration pid t sh = Some sh' ->
  sh_status sh' = sh_status sh.
Proof.
  unfold iteration, completes_foreground.
  destruct (cleanupProcs (reap t) (sh_procs sh)) as [procs finished].
  destruct (parsed pid t (sh_glob sh)) as [args g].
  destruct (isBuiltIn (head args) =? CD_CODE); [intros _ [= <-]; reflexivity |].
  destruct (isBuiltIn (head args) =? STATUS_CODE);
    [intros _ [= <-]; reflexivity |].
  destruct (isBuiltIn (head args) =? EXIT_CODE); [intros _ [=] |].
  destruct (isBuiltIn (head args) =? COMMENT_CODE);
    [intros _ [= <-]; reflexivity |].
  unfold spawnProcess, spawnProcess_parent. cbn [orb negb andb].
  destruct (fork_pid (spawn t) =? -1); [intros _ [= <-]; reflexivity |].
  destruct (backgroundFlag g); [intros _ [= <-]; reflexivity |].
  cbn [negb andb].
  destruct (wait_results (spawn t)); intros Hq [= <-];
    try discriminate Hq; reflexivity.
Qed.

Lemma main_loop_status (pid : Z) (turns : list turn) (sh : shell) :
  no_foreground_yet pid turns sh ->
  sh_status (main_loop pid turns sh) = sh_status sh.
Proof.
  revert sh. induction turns as [| t turns IH]; intros sh Hq; [reflexivity |].
  simpl in Hq |- *. destruct Hq as [Hq Hrest].
  destruct (iteration pid t sh) as [sh' |] eqn:Hit; [| reflexivity].
  rewrite (IH sh' Hrest). now apply (iteration_status pid t).
Qed.

(** [case STATUS_CODE] prints the text of the result it finds. *)
Lemma iteration_status_builtin (pid : Z) (t : turn) (sh : shell) :
  isBuiltIn (head (fst (parsed pid t (sh_glob sh)))) = STATUS_CODE ->
  exists sh',
    iteration pid t sh = Some sh' /\
    last (sh_effects sh') = Some (Stdout (status_text (sh_status sh))) /\
    sh_status sh' = sh_status sh.
Proof.
  unfold iteration.
  destruct (cleanupProcs (reap t) (sh_procs sh)) as [procs finished].
  destruct (parsed pid t (sh_glob sh)) as [args g]. cbn [fst].
  intros ->. cbn [Z.eqb STATUS_CODE CD_CODE]. simpl.
  eexists. split; [reflexivity |]. cbn [sh_effects sh_status].
  split; [| reflexivity]. now rewrite last_snoc.
Qed.

(** C10.  [main] declares [status] without giving it a value.  In any run
    in which no foreground command has completed yet, [status] still holds
    what the stack held at the start, whatever that is; the [status]
    builtin then prints the text of that value, and some other initial
    content of the stack would make it print something else. *)
Theorem status_before_first_foreground (pid : Z) (garbage : result)
    (turns : list turn) (t : turn) :
  no_foreground_yet pid turns (initial_shell garbage) ->
  sh_status (main_loop pid turns (initial_shell garbage)) = garbage /\
  (isBuiltIn
     (head (fst (parsed pid t
                   (sh_glob (main_loop pid turns (initial_shell garbage))))))
   = STATUS_CODE ->
   exists sh',
     iteration pid t (main_loop pid turns (initial_shell garbage)) = Some sh' /\
     last (sh_effects sh') = Some (Stdout (status_text garbage))) /\
  (exists other : result, status_text other <> status_text garbage).
Proof.
  intros Hq.
  pose proof (main_loop_status pid turns _ Hq) as Hst. cbn [initial_shell sh_status] in Hst.
  split; [exact Hst | split].
  - intros Hcode.
    destruct (iteration_status_builtin pid t _ Hcode) as (sh' & Hit & Hlast & _).
    exists sh'. split; [exact Hit |]. now rewrite <- Hst.
  - destruct (string_dec (status_text garbage)
                (status_text {| code := 0; sig := 0 |})) as [Heq | Hne].
    + exists {| code := 1; sig := 0 |}. rewrite Heq. discriminate.
    + exists {| code := 0; sig := 0 |}. congruence.
Qed.

Lemma status_before_first_foreground_witness :
  sh_status
    (main_loop 1234 [turn_of "cd /tmp"; turn_of "sleep 5 &"]
       (initial_shell {| code := 42; sig := 7 |}))
  = {| code := 42; sig := 7 |}.
Proof.
  apply (status_before_first_foreground 1234 {| code := 42; sig := 7 |}
           [turn_of "cd /tmp"; turn_of "sleep 5 &"] (turn_of "status")).
  vm_compute. repeat split.
Defined.

(** * Further properties *)

Import Helpers Terms.

(** ** The tokenizer *)

Lemma append_empty_r (s : string) : (s ++ EmptyString)%string = s.
Proof. induction s as [| c s IH]; simpl; [reflexivity | now rewrite IH]. Qed.

Lemma append_append (s1 s2 s3 : string) :
  ((s1 ++ s2) ++ s3)%string = (s1 ++ (s2 ++ s3))%string.
Proof. induction s1 as [| c s1 IH]; simpl; [reflexivity | now rewrite IH]. Qed.

Lemma all_chars_append (p : ascii -> bool) (s1 s2 : string) :
  all_chars p (s1 ++ s2)%string = all_chars p s1 && all_chars p s2.
Proof.
  induction s1 as [| c s1 IH]; simpl; [reflexivity |].
  now rewrite IH, andb_assoc.
Qed.

Lemma getArgs_loop_tokens (s w : string) :
  all_chars not_blank w = true ->
  List.length (getArgs_loop s w) = S (count_blanks s) /\
  Forall (fun t => all_chars not_blank t = true) (getArgs_loop s w).
Proof.
  revert w. induction s as [| c r IH]; intros w Hw.
  - split; [reflexivity | now repeat constructor].
  - cbn [getArgs_loop count_blanks]. destruct (is_blank c) eqn:Hc.
    + destruct (IH EmptyString eq_refl) as [Hlen Hall].
      split; [simpl; now rewrite Hlen | now constructor].
    + apply IH. rewrite all_chars_append, Hw. simpl.
      unfold not_blank. now rewrite Hc.
Qed.

(** X1.  [getArgs] cuts a line at every space and tab: it yields one
    token more than the line has spaces and tabs, and no token holds a
    space or a tab. *)
Theorem getArgs_tokens (line : string) :
  List.length (getArgs line) = S (count_blanks line) /\
  Forall (fun t => all_chars not_blank t = true) (getArgs line).
Proof. apply getArgs_loop_tokens. reflexivity. Qed.

Lemma getArgs_loop_join (s w : string) :
  join_space (getArgs_loop s w) = (w ++ tabs_to_spaces s)%string.
Proof.
  revert w. induction s as [| c r IH]; intros w.
  - simpl. now rewrite append_empty_r.
  - cbn [getArgs_loop tabs_to_spaces]. destruct (is_blank c) eqn:Hc.
    + pose proof (IH EmptyString) as Hrest.
      destruct (getArgs_loop r EmptyString) as [| t tl] eqn:Hl.
      * destruct r; simpl in Hl; [discriminate |].
        destruct (is_blank a); discriminate.
      * cbn [join_space]. cbn [join_space] in Hrest. rewrite Hrest.
        reflexivity.
    + rewrite IH, append_append. reflexivity.
Qed.

(** X2.  Putting the tokens of [getArgs] together again with one space
    between them gives the line back, tabs turned into spaces: nothing of
    the line is lost and runs of blanks are not shortened. *)
Theorem getArgs_join (line : string) :
  join_space (getArgs line) = tabs_to_spaces line.
Proof. apply getArgs_loop_join. Qed.

Lemma strip_newline_line (s rest : string) :
  all_chars not_LF s = true ->
  strip_newline (s ++ LF ++ rest)%string = s.
Proof.
  induction s as [| c s IH]; intros H; [reflexivity |].
  simpl in H. apply andb_prop in H as [Hc Hs].
  cbn [append strip_newline]. unfold not_LF in Hc.
  destruct (c =? "010")%char; [discriminate Hc |].
  now rewrite (IH Hs).
Qed.

Lemma strip_newline_plain (s : string) :
  all_chars not_LF s = true -> strip_newline s = s.
Proof.
  induction s as [| c s IH]; intros H; [reflexivity |].
  simpl in H. apply andb_prop in H as [Hc Hs].
  cbn [strip_newline]. unfold not_LF in Hc.
  destruct (c =? "010")%char; [discriminate Hc |].
  now rewrite (IH Hs).
Qed.

(** X3.  The cut made at the end of [prompt] returns the text typed
    before the first line feed, whatever follows it, returns a line
    without line feed as it is, and never returns a line feed. *)
Theorem strip_newline_cuts (s : string) :
  all_chars not_LF s = true ->
  (forall rest : string, strip_newline (s ++ LF ++ rest)%string = s) /\
  strip_newline s = s /\
  (forall raw : string, all_chars not_LF (strip_newline raw) = true).
Proof.
  intros H. split; [| split].
  - intros rest. now apply strip_newline_line.
  - now apply strip_newline_plain.
  - intros raw. induction raw as [| c raw IH]; [reflexivity |].
    cbn [strip_newline]. destruct (c =? "010")%char eqn:Hc; [reflexivity |].
    simpl. unfold not_LF at 1. now rewrite Hc.
Qed.

Lemma strip_newline_cuts_witness :
  strip_newline (line_of "ls -l") = "ls -l"%string.
Proof.
  apply (proj1 (strip_newline_cuts "ls -l" eq_refl) EmptyString).
Defined.

(** ** The marker, once more *)

Lemma string_length_append (s1 s2 : string) :
  String.length (s1 ++ s2)%string
  = (String.length s1 + String.length s2)%nat.
Proof. induction s1 as [| c s1 IH]; simpl; [reflexivity | now rewrite IH]. Qed.

Lemma pidString_first_not_dollar (pid : Z) (rest : string) :
  (pidString pid ++ rest)%string <> String "$" (String "$" rest).
Proof.
  pose proof (decimal_numeric pid) as Hnum.
  pose proof (pidString_nonempty pid) as Hne.
  unfold pidString in *. destruct (decimal pid) as [| d r]; [congruence |].
  simpl in Hnum. apply andb_prop in Hnum as [Hd _].
  simpl. intros [= -> _]. discriminate Hd.
Qed.

Lemma replaceDoubleDollars_unfold (pid : Z) (c1 c2 : ascii) (rest : string) :
  replaceDoubleDollars pid (String c1 (String c2 rest))
  = if (c1 =? "$")%char && (c2 =? "$")%char
    then (pidString pid ++ rest)%string
    else String c1 (replaceDoubleDollars pid (String c2 rest)).
Proof. reflexivity. Qed.

Lemma has_marker_unfold (c1 c2 : ascii) (rest : string) :
  has_marker (String c1 (String c2 rest))
  = (c1 =? "$")%char && (c2 =? "$")%char || has_marker (String c2 rest).
Proof. reflexivity. Qed.

(** X5.  [replaceDoubleDollars] changes a token exactly when the marker
    occurs in it, and then the token loses two characters and gains the
    digits of the pid. *)
Theorem replaceDoubleDollars_effect (pid : Z) (arg : string) :
  (replaceDoubleDollars pid arg = arg <-> has_marker arg = false) /\
  (has_marker arg = true ->
   (String.length (replaceDoubleDollars pid arg) + 2
    = String.length arg + String.length (pidString pid))%nat).
Proof.
  split; [split; [| apply replaceDoubleDollars_no_marker] |].
  - induction arg as [| c1 s IH]; [reflexivity |].
    destruct s as [| c2 rest]; [reflexivity |].
    rewrite replaceDoubleDollars_unfold, has_marker_unfold.
    destruct (Ascii.eqb_spec c1 "$") as [-> | H1];
      [destruct (Ascii.eqb_spec c2 "$") as [-> | H2] |]; cbn [andb orb].
    + intros H. now apply pidString_first_not_dollar in H.
    + intros [= H]. now apply IH.
    + intros [= H]. now apply IH.
  - induction arg as [| c1 s IH]; [discriminate |].
    destruct s as [| c2 rest]; [discriminate |].
    rewrite replaceDoubleDollars_unfold, has_marker_unfold.
    destruct ((c1 =? "$")%char && (c2 =? "$")%char); cbn [orb].
    + intros _. rewrite string_length_append. simpl. lia.
    + intros H. specialize (IH H).
      change (String.length (String c1 (replaceDoubleDollars pid (String c2 rest))))
        with (S (String.length (replaceDoubleDollars pid (String c2 rest)))).
      change (String.length (String c1 (String c2 rest)))
        with (S (String.length (String c2 rest))).
      lia.
Qed.

Lemma replaceDoubleDollars_effect_witness :
  (String.length (replaceDoubleDollars 1234 "a$$b") + 2
   = String.length "a$$b" + String.length (pidString 1234))%nat.
Proof.
  apply (proj2 (replaceDoubleDollars_effect 1234 "a$$b")). reflexivity.
Defined.

(** ** The directive parser, once more *)

Lemma parse_loop_more_fuel (pid : Z) (fuel1 : nat) :
  forall (fuel2 : nat) (st : parse_state),
    (turns_left (pending st) <= fuel1)%nat -> (fuel1 <= fuel2)%nat ->
    parse_loop pid fuel2 st = parse_loop pid fuel1 st.
Proof.
  induction fuel1 as [| fuel1 IH]; intros fuel2 st Hturns Hle.
  - destruct fuel2 as [| fuel2]; [reflexivity |]. simpl.
    destruct (parse_iter pid st) as [st' |] eqn:Hit; [| reflexivity].
    apply parse_iter_step, parse_step_turns in Hit. lia.
  - destruct fuel2 as [| fuel2]; [lia |]. simpl.
    destruct (parse_iter pid st) as [st' |] eqn:Hit; [| reflexivity].
    apply IH; [| lia].
    apply parse_iter_step, parse_step_turns in Hit. lia.
Qed.

(** X6.  The loop of [parseArgs] always comes to its end: after at most
    two turns per token nothing is left to examine, and letting it run
    longer changes nothing of the result. *)
Theorem parseArgs_fuel_independent (pid : Z) (args : list string)
    (g : globals) (fuel : nat) :
  (2 * List.length args <= fuel)%nat ->
  parse_loop pid fuel {| kept := []; pending := args; glob := g |}
  = parseArgs_state pid args g /\
  parse_iter pid (parseArgs_state pid args g) = None.
Proof.
  intros Hfuel. split.
  - unfold parseArgs_state. apply parse_loop_more_fuel; [| exact Hfuel].
    apply turns_left_bound.
  - apply parse_iter_done, parseArgs_completes.
Qed.

Lemma parseArgs_fuel_independent_witness :
  parse_loop 1234 100
    {| kept := []; pending := ["$$"%string; "<"%string; "f"%string];
       glob := initial_globals |}
  = parseArgs_state 1234 ["$$"%string; "<"%string; "f"%string]
      initial_globals.
Proof.
  apply (parseArgs_fuel_independent 1234
           ["$$"%string; "<"%string; "f"%string] initial_globals 100).
  simpl. lia.
Defined.

Lemma replaceDoubleDollars_marker (pid : Z) :
  replaceDoubleDollars pid "$$" = pidString pid.
Proof. simpl. apply append_empty_r. Qed.

(** X7.  Parsing only takes tokens out and expands markers: the reduced
    argument vector is, in the same order, a part of the token list in
    which every token has gone through [replaceDoubleDollars]. *)
Theorem parseArgs_keeps_order (pid : Z) (args : list string) (g : globals) :
  sublist (fst (parseArgs pid args g))
    (map (replaceDoubleDollars pid) args).
Proof.
  destruct (pidString_plain pid) as (_ & _ & _ & _ & Hpid).
  pose (P := fun st : parse_state =>
    sublist (kept st ++ map (replaceDoubleDollars pid) (pending st))
      (map (replaceDoubleDollars pid) args)).
  assert (HP : P (parseArgs_state pid args g)).
  { unfold parseArgs_state. apply (parse_loop_invariant pid P).
    - intros st st' HPst Hstep. unfold P in *.
      destruct Hstep; cbn [kept pending glob map] in *;
        rewrite <- ?app_assoc; cbn [app];
        try exact HPst;
        try (etransitivity; [| exact HPst];
             apply sublist_app; [reflexivity |];
             repeat apply sublist_cons; reflexivity).
      rewrite replaceDoubleDollars_marker in HPst.
      now rewrite (replaceDoubleDollars_no_marker _ _ Hpid).
    - unfold P. cbn [kept pending]. reflexivity. }
  unfold P in HP. rewrite parseArgs_completes in HP.
  simpl in HP. now rewrite app_nil_r in HP.
Qed.

Lemma redirect_targets_other (op t : string) (tl : list string) :
  t <> op -> redirect_targets op (t :: tl) = redirect_targets op tl.
Proof.
  intros Hne. destruct tl as [| w tl]; [reflexivity |].
  cbn [redirect_targets].
  destruct (String.eqb_spec t op) as [| _]; [contradiction | reflexivity].
Qed.

Lemma redirect_targets_no_word (op t : string) (tl : list string) :
  isWord (head tl) = false ->
  redirect_targets op (t :: tl) = redirect_targets op tl.
Proof.
  intros Hw. destruct tl as [| w tl]; [reflexivity |].
  cbn [redirect_targets]. cbn [head] in Hw. rewrite Hw, andb_false_r.
  reflexivity.
Qed.

Lemma redirect_targets_hit (op w : string) (tl : list string) :
  isWord (Some w) = true -> w <> op ->
  redirect_targets op (op :: w :: tl) = w :: redirect_targets op tl.
Proof.
  intros Hw Hne.
  change (redirect_targets op (op :: w :: tl))
    with (if (op =? op)%string && isWord (Some w)
          then w :: redirect_targets op (w :: tl)
          else redirect_targets op (w :: tl)).
  rewrite String.eqb_refl, Hw. cbn [andb].
  now rewrite redirect_targets_other.
Qed.

Lemma isWord_not_operator (w : string) :
  isWord (Some w) = true -> w <> "<"%string /\ w <> ">"%string.
Proof. intros H. split; intros ->; discriminate H. Qed.

(** X8.  The file names that parsing leaves in the two buffers: each is
    the word that follows the last [<] (for input) or the last [>] (for
    output) that has a word after it, taken as typed; the flag is then
    set.  Without such a token the flag and the buffer stay as they
    were. *)
Theorem parseArgs_redirections (pid : Z) (args : list string) (g : globals) :
  match last (redirect_targets "<" args) with
  | Some name =>
      inputRedirectionFlag (snd (parseArgs pid args g)) = true /\
      inputRedirectionFileName (snd (parseArgs pid args g)) = name
  | None =>
      inputRedirectionFlag (snd (parseArgs pid args g))
      = inputRedirectionFlag g /\
      inputRedirectionFileName (snd (parseArgs pid args g))
      = inputRedirectionFileName g
  end /\
  match last (redirect_targets ">" args) with
  | Some name =>
      outputRedirectionFlag (snd (parseArgs pid args g)) = true /\
      outputRedirectionFileName (snd (parseArgs pid args g)) = name
  | None =>
      outputRedirectionFlag (snd (parseArgs pid args g))
      = outputRedirectionFlag g /\
      outputRedirectionFileName (snd (parseArgs pid args g))
      = outputRedirectionFileName g
  end.
Proof.
  destruct (pidString_plain pid) as (Hp1 & Hp2 & _).
  pose (view_in := fun g : globals =>
    (inputRedirectionFlag g, inputRedirectionFileName g)).
  pose (view_out := fun g : globals =>
    (outputRedirectionFlag g, outputRedirectionFileName g)).
  pose (P := fun st : parse_state =>
    (exists seen,
       redirect_targets "<" args = seen ++ redirect_targets "<" (pending st) /\
       view_in (glob st)
       = match last seen with Some n => (true, n) | None => view_in g end) /\
    (exists seen,
       redirect_targets ">" args = seen ++ redirect_targets ">" (pending st) /\
       view_out (glob st)
       = match last seen with Some n => (true, n) | None => view_out g end)).
  assert (HP : P (parseArgs_state pid args g)).
  { unfold parseArgs_state. apply (parse_loop_invariant pid P).
    - intros st st' [(si & Hi1 & Hi2) (so & Ho1 & Ho2)] Hstep. unfold P.
      destruct Hstep; cbn [kept pending glob] in *.
      + destruct (isWord_not_operator _ H) as [Hw1 Hw2].
        rewrite redirect_targets_hit in Hi1 by assumption.
        rewrite redirect_targets_other, redirect_targets_other in Ho1
          by (assumption || discriminate).
        split.
        * exists (si ++ [w]). rewrite <- app_assoc, last_snoc.
          split; [exact Hi1 | reflexivity].
        * exists so. split; [exact Ho1 | exact Ho2].
      + rewrite redirect_targets_no_word in Hi1, Ho1 by assumption.
        split; [exists si | exists so]; split; assumption.
      + destruct (isWord_not_operator _ H) as [Hw1 Hw2].
        rewrite redirect_targets_hit in Ho1 by assumption.
        rewrite redirect_targets_other, redirect_targets_other in Hi1
          by (assumption || discriminate).
        split.
        * exists si. split; [exact Hi1 | exact Hi2].
        * exists (so ++ [w]). rewrite <- app_assoc, last_snoc.
          split; [exact Ho1 | reflexivity].
      + rewrite redirect_targets_no_word in Hi1, Ho1 by assumption.
        split; [exists si | exists so]; split; assumption.
      + rewrite redirect_targets_other in Hi1, Ho1 by discriminate.
        split; [exists si | exists so];
          (split; [| assumption]);
          rewrite redirect_targets_other by assumption; assumption.
      + split; [exists si | exists so]; split; assumption.
      + rewrite redirect_targets_other in Hi1, Ho1 by discriminate.
        split; [exists si | exists so]; split; assumption.
      + rewrite redirect_targets_other in Hi1, Ho1 by assumption.
        split; [exists si | exists so]; split; assumption.
    - unfold P. cbn [kept pending glob].
      split; exists []; split; reflexivity. }
  destruct HP as [(si & Hi1 & Hi2) (so & Ho1 & Ho2)].
  rewrite parseArgs_completes in Hi1, Ho1. cbn [redirect_targets] in Hi1, Ho1.
  rewrite app_nil_r in Hi1, Ho1. rewrite Hi1, Ho1.
  unfold parseArgs. cbn [snd]. unfold view_in, view_out in Hi2, Ho2.
  split.
  - destruct (last si); injection Hi2 as -> ->; split; reflexivity.
  - destruct (last so); injection Ho2 as -> ->; split; reflexivity.
Qed.

(** ** Dispatch *)

(** X9.  [isBuiltIn] knows exactly three names, each under its own code;
    a word is taken for a comment exactly when it is empty or starts with
    [#], so that [#exit] is a comment and not the builtin; every other
    word gets -1. *)
Theorem isBuiltIn_names (w : string) :
  (isBuiltIn (Some w) = CD_CODE <-> w = "cd"%string) /\
  (isBuiltIn (Some w) = STATUS_CODE <-> w = "status"%string) /\
  (isBuiltIn (Some w) = EXIT_CODE <-> w = "exit"%string) /\
  (isBuiltIn (Some w) = COMMENT_CODE <->
   w = EmptyString \/ exists r, w = String "#" r) /\
  (isBuiltIn (Some w) = CD_CODE \/ isBuiltIn (Some w) = STATUS_CODE \/
   isBuiltIn (Some w) = EXIT_CODE \/ isBuiltIn (Some w) = COMMENT_CODE \/
   isBuiltIn (Some w) = (-1)%Z).
Proof.
  destruct w as [| c r].
  - cbn. repeat split; try discriminate; try tauto; intros _; now left.
  - unfold isBuiltIn.
    destruct (Ascii.eqb_spec c "#") as [-> | Hc].
    + repeat split; try discriminate; try tauto.
      intros _. right. now exists r.
    + destruct (String.eqb_spec (String c r) "cd") as [-> | Hcd].
      { repeat split; try discriminate; try tauto.
        intros [H | [r' H]]; discriminate H. }
      destruct (String.eqb_spec (String c r) "status") as [-> | Hst].
      { repeat split; try discriminate; try tauto.
        intros [H | [r' H]]; discriminate H. }
      destruct (String.eqb_spec (String c r) "exit") as [-> | Hex].
      { repeat split; try discriminate; try tauto.
        intros [H | [r' H]]; discriminate H. }
      repeat split; try discriminate; try tauto.
      intros [H | [r' H]]; [discriminate H | congruence].
Qed.

Lemma getArgs_loop_head (s w : string) :
  head (getArgs_loop s w) = Some (w ++ first_field s)%string.
Proof.
  revert w. induction s as [| c r IH]; intros w.
  - simpl. now rewrite append_empty_r.
  - cbn [getArgs_loop first_field]. destruct (is_blank c).
    + simpl. now rewrite append_empty_r.
    + rewrite IH, append_append. reflexivity.
Qed.

(** The first token, when it is an ordinary word, becomes the first
    argument. *)
Lemma parseArgs_head_word (pid : Z) (t : string) (tl : list string)
    (g : globals) :
  t <> "<"%string -> t <> ">"%string -> t <> "$$"%string -> t <> "&"%string ->
  head (fst (parseArgs pid (t :: tl) g)) = Some (replaceDoubleDollars pid t).
Proof.
  intros H1 H2 H3 H4. unfold parseArgs, parseArgs_state. cbn [fst].
  replace (2 * List.length (t :: tl))%nat
    with (S (S (2 * List.length tl)))%nat by (simpl; lia).
  set (fuel := S (2 * List.length tl)).
  change (parse_loop pid (S fuel)
            {| kept := []; pending := t :: tl; glob := g |})
    with (match parse_iter pid {| kept := []; pending := t :: tl; glob := g |}
          with
          | None => {| kept := []; pending := t :: tl; glob := g |}
          | Some st' => parse_loop pid fuel st'
          end).
  assert (Hit : parse_iter pid {| kept := []; pending := t :: tl; glob := g |}
                = Some {| kept := [replaceDoubleDollars pid t];
                          pending := tl; glob := g |}).
  { unfold parse_iter. cbn [pending kept glob].
    rewrite (proj2 (String.eqb_neq _ _) H1), (proj2 (String.eqb_neq _ _) H2),
      (proj2 (String.eqb_neq _ _) H3), (proj2 (String.eqb_neq _ _) H4).
    reflexivity. }
  rewrite Hit.
  apply (parse_loop_invariant pid
           (fun st => head (kept st) = Some (replaceDoubleDollars pid t)));
    [| reflexivity].
  intros st st' Hst Hstep.
  destruct Hstep; cbn [kept] in *; try exact Hst;
    destruct k; try discriminate Hst; exact Hst.
Qed.

Lemma parsed_comment (pid : Z) (t : turn) (g : globals) :
  strip_newline (typed t) = EmptyString \/
  starts_blank (strip_newline (typed t)) = true \/
  (exists r, strip_newline (typed t) = String "#" r) ->
  isBuiltIn (head (fst (parsed pid t g))) = COMMENT_CODE.
Proof.
  intros Hline. unfold parsed.
  set (g' := fst (displayBGMessage g)).
  pose proof (getArgs_loop_head (strip_newline (typed t)) EmptyString) as Hh.
  fold (getArgs (strip_newline (typed t))) in Hh. cbn [append] in Hh.
  destruct (getArgs (strip_newline (typed t))) as [| t0 tl]; [discriminate |].
  injection Hh as ->.
  assert (Hfirst : first_field (strip_newline (typed t)) = EmptyString \/
                   exists r, first_field (strip_newline (typed t))
                             = String "#" r).
  { destruct Hline as [-> | [Hb | [r ->]]].
    - now left.
    - left. destruct (strip_newline (typed t)); [reflexivity |].
      simpl in Hb |- *. now rewrite Hb.
    - right. simpl. eexists. reflexivity. }
  destruct Hfirst as [-> | [r ->]].
  - rewrite parseArgs_head_word by discriminate. reflexivity.
  - rewrite parseArgs_head_word by discriminate.
    destruct r as [| c2 r']; [reflexivity |].
    rewrite replaceDoubleDollars_unfold. reflexivity.
Qed.

(** X10.  A line that is empty, starts with a space or a tab, or starts
    with [#] runs nothing: the turn reaps, shows the pending notice and
    the prompt, resets the per-line flags and leaves the result of the
    last foreground command alone; no process is made and no directory
    is changed. *)
Theorem blank_or_comment_turn (pid : Z) (t : turn) (sh : shell) :
  strip_newline (typed t) = EmptyString \/
  starts_blank (strip_newline (typed t)) = true \/
  (exists r, strip_newline (typed t) = String "#" r) ->
  iteration pid t sh
  = Some {| sh_glob := resetFlags (snd (parsed pid t (sh_glob sh)));
            sh_procs := fst (cleanupProcs (reap t) (sh_procs sh));
            sh_status := sh_status sh;
            sh_effects := idle_effects t sh |}.
Proof.
  intros Hline.
  pose proof (parsed_comment pid t (sh_glob sh) Hline) as Hcode.
  unfold iteration, idle_effects.
  destruct (cleanupProcs (reap t) (sh_procs sh)) as [procs finished].
  destruct (parsed pid t (sh_glob sh)) as [args g]. cbn [fst snd] in *.
  rewrite Hcode. reflexivity.
Qed.

Lemma blank_or_comment_turn_witness :
  iteration 1234 (turn_of " ls") (initial_shell {| code := 0; sig := 0 |})
  = Some {| sh_glob :=
              resetFlags (snd (parsed 1234 (turn_of " ls") initial_globals));
            sh_procs := createProcessArray;
            sh_status := {| code := 0; sig := 0 |};
            sh_effects := [Stdout ":"] |}.
Proof.
  apply (blank_or_comment_turn 1234 (turn_of " ls")
           (initial_shell {| code := 0; sig := 0 |})).
  right. left. reflexivity.
Defined.

(** ** The dispatch loop *)

Lemma parseArgs_mode (pid : Z) (args : list string) (g : globals) :
  background_allowed (snd (parseArgs pid args g)) = background_allowed g /\
  previous_background_allowed (snd (parseArgs pid args g))
  = previous_background_allowed g /\
  foregroundProcessRunning (snd (parseArgs pid args g))
  = foregroundProcessRunning g.
Proof.
  unfold parseArgs, parseArgs_state. cbn [snd].
  apply (parse_loop_invariant pid
           (fun st =>
              background_allowed (glob st) = background_allowed g /\
              previous_background_allowed (glob st)
              = previous_background_allowed g /\
              foregroundProcessRunning (glob st)
              = foregroundProcessRunning g));
    [| now repeat split].
  intros st st' Hst Hstep. destruct Hstep; exact Hst.
Qed.

Lemma displayBGMessage_mode (g : globals) :
  background_allowed (fst (displayBGMessage g)) = background_allowed g /\
  foregroundProcessRunning (fst (displayBGMessage g))
  = foregroundProcessRunning g.
Proof.
  unfold displayBGMessage.
  destruct (Bool.eqb _ _); split; reflexivity.
Qed.

Lemma parsed_mode (pid : Z) (t : turn) (g : globals) :
  background_allowed (snd (parsed pid t g)) = background_allowed g /\
  foregroundProcessRunning (snd (parsed pid t g))
  = foregroundProcessRunning g.
Proof.
  unfold parsed.
  destruct (parseArgs_mode pid (getArgs (strip_newline (typed t)))
              (fst (displayBGMessage g))) as (H1 & _ & H3).
  destruct (displayBGMessage_mode g) as [H4 H5].
  rewrite H1, H3. now split.
Qed.

Lemma iteration_glob (pid : Z) (t : turn) (sh sh' : shell) :
  iteration pid t sh = Some sh' ->
  inputRedirectionFlag (sh_glob sh') = false /\
  outputRedirectionFlag (sh_glob sh') = false /\
  backgroundFlag (sh_glob sh') = false /\
  background_allowed (sh_glob sh') = background_allowed (sh_glob sh) /\
  (foregroundProcessRunning (sh_glob sh) = false ->
   foregroundProcessRunning (sh_glob sh') = false).
Proof.
  unfold iteration.
  destruct (cleanupProcs (reap t) (sh_procs sh)) as [procs finished].
  destruct (parsed_mode pid t (sh_glob sh)) as [Hmode Hfg].
  destruct (parsed pid t (sh_glob sh)) as [args g]. cbn [snd] in *.
  destruct (isBuiltIn (head args) =? CD_CODE);
    [intros [= <-]; cbn; rewrite Hfg; now repeat split |].
  destruct (isBuiltIn (head args) =? STATUS_CODE);
    [intros [= <-]; cbn; rewrite Hfg; now repeat split |].
  destruct (isBuiltIn (head args) =? EXIT_CODE); [intros [=] |].
  destruct (isBuiltIn (head args) =? COMMENT_CODE);
    [intros [= <-]; cbn; rewrite Hfg; now repeat split |].
  unfold spawnProcess, spawnProcess_parent.
  destruct (fork_pid (spawn t) =? -1);
    [intros [= <-]; cbn; rewrite Hfg; now repeat split |].
  destruct (backgroundFlag g);
    [intros [= <-]; cbn; rewrite Hfg; now repeat split |].
  destruct (wait_results (spawn t)); intros [= <-]; cbn; now repeat split.
Qed.

(** X11.  Every line is parsed with the three per-line flags off: they
    are off when the shell starts and every turn of the loop ends by
    resetting them, whatever the line did. *)
Theorem main_loop_flags_reset (pid : Z) (garbage : result)
    (turns : list turn) :
  inputRedirectionFlag
    (sh_glob (main_loop pid turns (initial_shell garbage))) = false /\
  outputRedirectionFlag
    (sh_glob (main_loop pid turns (initial_shell garbage))) = false /\
  backgroundFlag
    (sh_glob (main_loop pid turns (initial_shell garbage))) = false.
Proof.
  assert (H : forall sh,
             inputRedirectionFlag (sh_glob sh) = false /\
             outputRedirectionFlag (sh_glob sh) = false /\
             backgroundFlag (sh_glob sh) = false ->
             inputRedirectionFlag (sh_glob (main_loop pid turns sh)) = false /\
             outputRedirectionFlag (sh_glob (main_loop pid turns sh)) = false /\
             backgroundFlag (sh_glob (main_loop pid turns sh)) = false).
  { induction turns as [| t turns IH]; intros sh Hsh; [exact Hsh |].
    simpl. destruct (iteration pid t sh) as [sh' |] eqn:Hit; [| exact Hsh].
    apply IH. apply iteration_glob in Hit. tauto. }
  apply H. now repeat split.
Qed.

(** X12.  The dispatch loop never changes the mode: whether background
    execution is allowed after any number of turns is what it was before
    them (only the signal handler flips it); and between two turns no
    foreground wait is marked as running. *)
Theorem main_loop_keeps_mode (pid : Z) (turns : list turn) (sh : shell) :
  background_allowed (sh_glob (main_loop pid turns sh))
  = background_allowed (sh_glob sh) /\
  (foregroundProcessRunning (sh_glob sh) = false ->
   foregroundProcessRunning (sh_glob (main_loop pid turns sh)) = false).
Proof.
  revert sh. induction turns as [| t turns IH]; intros sh; [now split |].
  simpl. destruct (iteration pid t sh) as [sh' |] eqn:Hit; [| now split].
  apply iteration_glob in Hit. destruct Hit as (_ & _ & _ & Hmode & Hfg).
  destruct (IH sh') as [IH1 IH2]. split; [congruence | auto].
Qed.

Lemma main_loop_keeps_mode_witness :
  foregroundProcessRunning
    (sh_glob (main_loop 1234 [turn_of "ls"; turn_of "sleep 5 &"]
                (initial_shell {| code := 0; sig := 0 |}))) = false.
Proof.
  apply (proj2 (main_loop_keeps_mode 1234 [turn_of "ls"; turn_of "sleep 5 &"]
                  (initial_shell {| code := 0; sig := 0 |}))).
  reflexivity.
Defined.

(** X13.  A foreground command that completes leaves its outcome for
    [status]: after a normal exit with code [c] the next [status] prints
    [exit value c]; after a death by signal [s] the shell prints
    [terminated by signal s] at once and [status] prints it again. *)
Theorem foreground_result_reported (pid : Z) (t : turn) (sh : shell) :
  completes_foreground pid t sh = true ->
  exists sh',
    iteration pid t sh = Some sh' /\
    sh_status sh'
    = match wait_results (spawn t) with
      | WExited c => {| code := c; sig := 0 |}
      | WSignaled s => {| code := s; sig := 1 |}
      | WOther => sh_status sh
      end /\
    (forall s, wait_results (spawn t) = WSignaled s ->
       last (sh_effects sh')
       = Some (Stdout (line_of ("terminated by signal " ++ decimal s)))) /\
    (forall ts : turn,
       isBuiltIn (head (fst (parsed pid ts (sh_glob sh')))) = STATUS_CODE ->
       exists sh'',
         iteration pid ts sh' = Some sh'' /\
         last (sh_effects sh'')
         = Some (Stdout
                   match wait_results (spawn t) with
                   | WExited c => line_of ("exit value " ++ decimal c)
                   | WSignaled s =>
                       line_of ("terminated by signal " ++ decimal s)
                   | WOther => status_text (sh_status sh)
                   end)).
Proof.
  intros Hfg.
  assert (Hit : exists sh',
            iteration pid t sh = Some sh' /\
            sh_status sh'
            = match wait_results (spawn t) with
              | WExited c => {| code := c; sig := 0 |}
              | WSignaled s => {| code := s; sig := 1 |}
              | WOther => sh_status sh
              end /\
            (forall s, wait_results (spawn t) = WSignaled s ->
               last (sh_effects sh')
               = Some (Stdout (line_of ("terminated by signal "
                                        ++ decimal s))))).
  { revert Hfg. unfold iteration, completes_foreground.
    destruct (cleanupProcs (reap t) (sh_procs sh)) as [procs finished].
    destruct (parsed pid t (sh_glob sh)) as [args g].
    destruct (isBuiltIn (head args) =? CD_CODE); [discriminate |].
    destruct (isBuiltIn (head args) =? STATUS_CODE); [discriminate |].
    destruct (isBuiltIn (head args) =? EXIT_CODE); [discriminate |].
    destruct (isBuiltIn (head args) =? COMMENT_CODE); [discriminate |].
    unfold spawnProcess, spawnProcess_parent. cbn [orb negb andb].
    destruct (fork_pid (spawn t) =? -1); [discriminate |].
    destruct (backgroundFlag g); [discriminate |]. cbn [negb andb].
    destruct (wait_results (spawn t)) as [c | s |]; [| | discriminate];
      intros _; eexists; (split; [reflexivity |]); cbn [sh_status p_status];
      (split; [reflexivity |]); intros s' [= <-].
    cbn [sh_effects p_printed map]. rewrite !app_assoc. apply last_snoc. }
  destruct Hit as (sh' & Hit & Hst & Hsig).
  exists sh'. split; [exact Hit | split; [exact Hst | split; [exact Hsig |]]].
  intros ts Hcode.
  destruct (iteration_status_builtin pid ts sh' Hcode) as (sh'' & H1 & H2 & _).
  exists sh''. split; [exact H1 |]. rewrite H2, Hst.
  destruct (wait_results (spawn t)); reflexivity.
Qed.

Lemma foreground_result_reported_witness :
  exists sh',
    iteration 1234 (turn_of "ls") (initial_shell {| code := 9; sig := 9 |})
    = Some sh' /\
    sh_status sh' = {| code := 0; sig := 0 |}.
Proof.
  destruct (foreground_result_reported 1234 (turn_of "ls")
              (initial_shell {| code := 9; sig := 9 |}) eq_refl)
    as (sh' & H1 & H2 & _).
  exists sh'. split; [exact H1 | exact H2].
Defined.

Lemma NoDup_snoc (x : Z) (l : list Z) :
  List.NoDup l -> ~ In x l -> List.NoDup (l ++ [x]).
Proof.
  intros Hl Hx. apply List.NoDup_rev in Hl.
  rewrite <- (rev_involutive (l ++ [x])). apply List.NoDup_rev.
  rewrite rev_app_distr. simpl. constructor; [| exact Hl].
  now rewrite <- in_rev.
Qed.

Lemma iteration_registry (pid : Z) (t : turn) (sh sh' : shell) (l : list Z) :
  holds (sh_procs sh) l -> List.NoDup l ->
  answers_asked (reap t) ->
  fresh_fork t (fst (cleanupProcs (reap t) (sh_procs sh))) ->
  iteration pid t sh = Some sh' ->
  exists l', holds (sh_procs sh') l' /\ List.NoDup l'.
Proof.
  intros H Hnd Hwait Hfresh.
  destruct (cleanupProcs_reaps (reap t) _ _ Hwait H Hnd) as [Hkept _].
  assert (Hnd' : List.NoDup (List.filter (still_running (reap t)) l))
    by now apply List.NoDup_filter.
  revert Hfresh Hkept. unfold iteration.
  destruct (cleanupProcs (reap t) (sh_procs sh)) as [procs finished].
  cbn [fst]. intros Hfresh Hkept.
  destruct (parsed pid t (sh_glob sh)) as [args g].
  destruct (isBuiltIn (head args) =? CD_CODE);
    [intros [= <-]; eexists; split; eassumption |].
  destruct (isBuiltIn (head args) =? STATUS_CODE);
    [intros [= <-]; eexists; split; eassumption |].
  destruct (isBuiltIn (head args) =? EXIT_CODE); [intros [=] |].
  destruct (isBuiltIn (head args) =? COMMENT_CODE);
    [intros [= <-]; eexists; split; eassumption |].
  unfold spawnProcess, spawnProcess_parent.
  destruct (Z.eqb_spec (fork_pid (spawn t)) (-1)) as [Hfail | Hok];
    [intros [= <-]; eexists; split; eassumption |].
  destruct (backgroundFlag g).
  - intros [= <-]. cbn [sh_procs p_procs].
    destruct Hfresh as [Hf | [Hpos Hnew]]; [contradiction |].
    rewrite (holds_enumerate _ _ Hkept) in Hnew.
    eexists. split.
    + apply processesAdd_holds; [exact Hkept | lia].
    + now apply NoDup_snoc.
  - destruct (wait_results (spawn t)); intros [= <-];
      eexists; split; eassumption.
Qed.

(** X14.  As long as the system answers as it should (each non-blocking
    wait answers for the pid asked, [fork] returns -1 or a fresh positive
    pid), the registry of the running shell keeps its shape through any
    number of turns: distinct non-zero pids in the first [size] slots,
    zeros after them, [size] within the capacity. *)
Theorem main_loop_registry (pid : Z) (garbage : result) (turns : list turn) :
  well_served pid turns (initial_shell garbage) ->
  exists l : list Z,
    holds (sh_procs (main_loop pid turns (initial_shell garbage))) l /\
    List.NoDup l /\
    0 <= size (sh_procs (main_loop pid turns (initial_shell garbage)))
      <= capacity (sh_procs (main_loop pid turns (initial_shell garbage))).
Proof.
  assert (H : forall sh l,
             holds (sh_procs sh) l -> List.NoDup l ->
             well_served pid turns sh ->
             exists l', holds (sh_procs (main_loop pid turns sh)) l' /\
                        List.NoDup l').
  { induction turns as [| t turns IH]; intros sh l Hl Hnd Hserved.
    - exists l. now split.
    - simpl in Hserved |- *. destruct Hserved as (Hwait & Hfresh & Hrest).
      destruct (iteration pid t sh) as [sh' |] eqn:Hit.
      + destruct (iteration_registry pid t sh sh' l Hl Hnd Hwait Hfresh Hit)
          as (l' & Hl' & Hnd').
        now apply (IH sh' l').
      + exists l. now split. }
  intros Hserved.
  destruct (H (initial_shell garbage) [] createProcessArray_holds
              ltac:(constructor) Hserved) as (l & Hl & Hnd).
  exists l. split; [exact Hl | split; [exact Hnd |]].
  destruct (holds_elim _ _ Hl) as (k & _ & Hcap & Hsize & _). lia.
Qed.

Lemma main_loop_registry_witness :
  exists l : list Z,
    holds (sh_procs
             (main_loop 1234
                [turn_of "sleep 5 &";
                 {| typed := line_of "sleep 9 &";
                    reap := fun _ => (0, WOther);
                    spawn := {| fork_pid := 4322; child_os := obliging;
                                wait_results := WExited 0 |} |}]
                (initial_shell {| code := 0; sig := 0 |}))) l /\
    List.NoDup l.
Proof.
  destruct (main_loop_registry 1234 {| code := 0; sig := 0 |}
              [turn_of "sleep 5 &";
               {| typed := line_of "sleep 9 &";
                  reap := fun _ => (0, WOther);
                  spawn := {| fork_pid := 4322; child_os := obliging;
                              wait_results := WExited 0 |} |}])
    as (l & H1 & H2 & _).
  - simpl. repeat split.
    + intros p. right. simpl. lia.
    + right. split; [reflexivity |]. vm_compute. tauto.
    + intros p. right. simpl. lia.
    + right. split; [reflexivity |]. vm_compute.
      intros [H | H]; [discriminate H | exact H].
  - exists l. split; [exact H1 | exact H2].
Defined.

(** ** The job registry, once more *)

Lemma holds_unique (p q : processes) (l : list Z) :
  holds p l -> holds q l -> capacity p = capacity q -> p = q.
Proof.
  intros Hp Hq Hcap.
  destruct (holds_elim _ _ Hp) as (k1 & Ha1 & Hc1 & Hs1 & _).
  destruct (holds_elim _ _ Hq) as (k2 & Ha2 & Hc2 & Hs2 & _).
  assert (k1 = k2) by lia. subst k2.
  destruct p as [cp sp ap], q as [cq sq aq]. cbn [capacity size array] in *.
  congruence.
Qed.

Lemma processesRemove_capacity (proc : processes) (val : Z) :
  capacity (processesRemove proc val) = capacity proc.
Proof.
  unfold processesRemove.
  destruct (list_find _ _) as [[i y] |]; reflexivity.
Qed.

Lemma processesAdd_capacity (proc : processes) (val : Z) :
  capacity (processesAdd proc val)
  = if capacity proc =? size proc then capacity proc * 2 else capacity proc.
Proof.
  unfold processesAdd. destruct (capacity proc =? size proc);
    destruct (list_find _ _) as [[i y] |]; reflexivity.
Qed.

(** X15.  Removing a pid that is not registered changes nothing. *)
Theorem processesRemove_absent (proc : processes) (l : list Z) (val : Z) :
  holds proc l -> val <> 0 -> ~ In val l ->
  processesRemove proc val = proc.
Proof.
  intros H Hval Hnot.
  destruct (holds_elim _ _ H) as (k & Harr & _).
  unfold processesRemove. rewrite Harr.
  pose proof (remove_shift val l k Hval) as Hshift.
  destruct (list_find (fun x => x = val) (l ++ replicate k 0)) as [[i y] |];
    [| reflexivity].
  destruct Hshift as [Hin _]. contradiction.
Qed.

Lemma processesRemove_absent_witness :
  processesRemove (run_ops [Add 5; Add 7]) 9 = run_ops [Add 5; Add 7].
Proof.
  apply (processesRemove_absent (run_ops [Add 5; Add 7]) [5; 7] 9).
  - unfold holds. vm_compute. repeat split; try reflexivity.
    repeat constructor; discriminate.
  - lia.
  - simpl. intros H. repeat (destruct H as [H | H]; try lia).
Defined.

(** X16.  Adding a new pid and removing it again gives back the jobs
    that were there, in their order; the registry itself is back to what
    it was when the add found room, and keeps its doubled capacity when
    the add had to grow it. *)
Theorem add_then_remove (proc : processes) (l : list Z) (val : Z) :
  holds proc l -> val <> 0 -> ~ In val l ->
  enumerate (processesRemove (processesAdd proc val) val) = enumerate proc /\
  (size proc < capacity proc ->
   processesRemove (processesAdd proc val) val = proc) /\
  (size proc = capacity proc ->
   capacity (processesRemove (processesAdd proc val) val)
   = 2 * capacity proc).
Proof.
  intros H Hval Hnot.
  pose proof (processesAdd_holds _ _ _ H Hval) as Hadd.
  pose proof (processesRemove_holds _ _ val Hadd Hval) as Hrem.
  rewrite remove_first_middle, app_nil_r in Hrem by exact Hnot.
  split; [| split].
  - rewrite (holds_enumerate _ _ Hrem), (holds_enumerate _ _ H). reflexivity.
  - intros Hroom. apply (holds_unique _ _ l Hrem H).
    rewrite processesRemove_capacity, processesAdd_capacity.
    destruct (Z.eqb_spec (capacity proc) (size proc)); [lia | reflexivity].
  - intros Hfull.
    rewrite processesRemove_capacity, processesAdd_capacity.
    rewrite Hfull, Z.eqb_refl. lia.
Qed.

Lemma add_then_remove_witness :
  processesRemove (processesAdd (run_ops [Add 5; Add 7]) 9) 9
  = run_ops [Add 5; Add 7].
Proof.
  apply (add_then_remove (run_ops [Add 5; Add 7]) [5; 7] 9).
  - unfold holds. vm_compute. repeat split; try reflexivity.
    repeat constructor; discriminate.
  - lia.
  - simpl. intros H. repeat (destruct H as [H | H]; try lia).
  - vm_compute. reflexivity.
Defined.

(** X17.  Whatever is added and removed, the capacity is ten times a
    power of two (it starts at 10, an add either keeps or doubles it, a
    remove keeps it), and it never goes down. *)
Theorem capacity_doubles_only (ops more : list op) :
  (exists k : nat, capacity (run_ops ops) = 10 * 2 ^ Z.of_nat k) /\
  capacity (run_ops ops) <= capacity (run_ops (ops ++ more)).
Proof.
  assert (Hstep : forall proc o,
            capacity (apply_op proc o) = capacity proc \/
            capacity (apply_op proc o) = capacity proc * 2).
  { intros proc [v | v]; cbn [apply_op].
    - rewrite processesAdd_capacity.
      destruct (capacity proc =? size proc); tauto.
    - left. apply processesRemove_capacity. }
  assert (Hpow : forall l proc,
            (exists k : nat, capacity proc = 10 * 2 ^ Z.of_nat k) ->
            exists k : nat,
              capacity (fold_left apply_op l proc) = 10 * 2 ^ Z.of_nat k).
  { induction l as [| o l IH]; intros proc Hk; [exact Hk |].
    simpl. apply IH. destruct Hk as [k Hk].
    destruct (Hstep proc o) as [-> | ->]; [now exists k |].
    exists (S k). rewrite Hk, Nat2Z.inj_succ, Z.pow_succ_r by lia. lia. }
  assert (Hmono : forall l proc,
            0 < capacity proc ->
            capacity proc <= capacity (fold_left apply_op l proc)).
  { induction l as [| o l IH]; intros proc Hpos; [simpl; lia |].
    simpl. destruct (Hstep proc o) as [He | He].
    - etransitivity; [| apply IH; lia]. lia.
    - etransitivity; [| apply IH; lia]. lia. }
  split.
  - apply Hpow. exists 0%nat. reflexivity.
  - unfold run_ops. rewrite fold_left_app. apply Hmono.
    destruct (Hpow ops createProcessArray) as [k Hk];
      [exists 0%nat; reflexivity |].
    rewrite Hk. lia.
Qed.

Lemma cleanupProcs_loop_idle (wait : waitpid_nohang) (fuel : nat) :
  (forall pid, fst (wait pid) <= 0) ->
  forall (i : Z) (procs : processes) (printed : list reaped),
    cleanupProcs_loop wait fuel i procs printed = (procs, printed).
Proof.
  intros Hwait. induction fuel as [| fuel IH]; intros i procs printed;
    [reflexivity |].
  cbn [cleanupProcs_loop]. destruct (i <? size procs); [| reflexivity].
  pose proof (Hwait (nth (Z.to_nat i) (array procs) 0)) as Hle.
  destruct (wait (nth (Z.to_nat i) (array procs) 0)) as [pid results].
  cbn [fst] in Hle. destruct (Z.ltb_spec 0 pid); [lia | apply IH].
Qed.

(** X18.  When no job is reported as finished, [cleanupProcs] leaves the
    registry exactly as it is and prints nothing. *)
Theorem cleanupProcs_none_finished (wait : waitpid_nohang)
    (procs : processes) :
  (forall pid, fst (wait pid) <= 0) ->
  cleanupProcs wait procs = (procs, []).
Proof. intros Hwait. now apply cleanupProcs_loop_idle. Qed.

Lemma cleanupProcs_none_finished_witness :
  cleanupProcs (fun _ => (0, WOther)) (run_ops [Add 5; Add 7])
  = (run_ops [Add 5; Add 7], []).
Proof.
  apply (cleanupProcs_none_finished (fun _ => (0, WOther))
           (run_ops [Add 5; Add 7])).
  intros p. simpl. lia.
Defined.

(** X19.  Pid 0 is not a job.  On a registry with a free slot, adding 0
    stores nothing and still counts one more entry, and removing 0 takes
    nothing out and still counts one less: the block is the same and only
    [size] moves, so that the enumeration gains a slot holding 0 or loses
    its last job. *)
Theorem pid_zero_moves_size_only (proc : processes) (l : list Z) :
  holds proc l -> size proc < capacity proc ->
  processesAdd proc 0
  = {| capacity := capacity proc; size := size proc + 1;
       array := array proc |} /\
  processesRemove proc 0
  = {| capacity := capacity proc; size := size proc - 1;
       array := array proc |}.
Proof.
  intros H Hroom.
  destruct (holds_elim _ _ H) as (k & Harr & Hcap & Hsize & _ & Hnz).
  destruct k as [| k]; [lia |].
  split.
  - unfold processesAdd.
    destruct (Z.eqb_spec (capacity proc) (size proc)); [lia |].
    rewrite Harr, find_first_zero by exact Hnz. f_equal.
    rewrite insert_app_r_alt, Nat.sub_diag by lia. reflexivity.
  - unfold processesRemove.
    rewrite Harr, find_first_zero by exact Hnz. f_equal.
    cbn [replicate]. rewrite delete_middle, <- app_assoc. f_equal.
    change (replicate k 0 ++ [0] = replicate (S k) 0).
    now rewrite replicate_S_end.
Qed.

Lemma pid_zero_moves_size_only_witness :
  processesRemove (run_ops [Add 5; Add 7]) 0
  = {| capacity := 10; size := 1; array := [5; 7; 0; 0; 0; 0; 0; 0; 0; 0] |}.
Proof.
  apply (pid_zero_moves_size_only (run_ops [Add 5; Add 7]) [5; 7]).
  - unfold holds. vm_compute. repeat split; try reflexivity.
    repeat constructor; discriminate.
  - vm_compute. reflexivity.
Defined.

(** ** The mode, once more *)

Lemma step_mode (g : globals) (e : event) :
  background_allowed (fst (step g e))
  = match e with
    | Sigtstp => negb (background_allowed g)
    | _ => background_allowed g
    end.
Proof.
  destruct e; cbn [step]; try reflexivity.
  - unfold shellCatchSIGTSTP.
    cbn [foregroundProcessRunning set_background_allowed background_allowed].
    destruct (foregroundProcessRunning g); cbn;
      destruct (background_allowed g); reflexivity.
  - unfold displayBGMessage. destruct (Bool.eqb _ _); reflexivity.
Qed.

Lemma run_cons (e : event) (events : list event) (g : globals) :
  run (e :: events) g
  = (fst (run events (fst (step g e))),
     (snd (step g e) ++ snd (run events (fst (step g e))))%list).
Proof.
  cbn [run]. destruct (step g e) as [g1 out1]. cbn [fst snd].
  destruct (run events g1) as [g2 out2]. reflexivity.
Qed.

(** X20.  The suspend signal toggles: after any sequence of events
    background execution is allowed exactly when it was allowed before
    and an even number of signals arrived, or was not and an odd number
    did; nothing else changes the mode. *)
Theorem mode_is_parity (events : list event) (g : globals) :
  background_allowed (fst (run events g))
  = xorb (background_allowed g) (Nat.odd (count_sigtstp events)).
Proof.
  revert g. induction events as [| e events IH]; intros g.
  - simpl. now rewrite xorb_false_r.
  - rewrite run_cons. cbn [fst]. rewrite IH, step_mode.
    destruct e; cbn [count_sigtstp]; try reflexivity.
    rewrite Nat.odd_succ, <- Nat.negb_odd.
    destruct (background_allowed g), (Nat.odd (count_sigtstp events));
      reflexivity.
Qed.




Lemma displayBGMessage_announced (g : globals) :
  unannounced g = 0%nat -> displayBGMessage g = (g, []).
Proof.
  unfold unannounced, displayBGMessage.
  destruct (Bool.eqb _ _); [reflexivity | discriminate].
Qed.

Lemma displayBGMessage_announces (g : globals) :
  unannounced (fst (displayBGMessage g)) = 0%nat.
Proof.
  destruct g as [i o a p fi fo fb fg].
  unfold unannounced, displayBGMessage. cbn. destruct a, p; reflexivity.
Qed.

Lemma prompt_again_announced (failed : nat) (g : globals) :
  unannounced g = 0%nat ->
  prompt_again failed g = (g, repeat ":"%string failed).
Proof.
  intros Hg. induction failed as [| failed IH]; [reflexivity |].
  cbn [prompt_again repeat].
  rewrite (displayBGMessage_announced g Hg), IH. reflexivity.
Qed.

(** X22.  [prompt] shows the pending notice once, before the first
    prompt character, however often reading fails; it writes one prompt
    character for the first attempt and one for each failed one, leaves
    the mode announced and hands over the line without its line feed. *)
Theorem prompt_output (failed : nat) (raw : string) (g : globals) :
  prompt failed raw g
  = (fst (displayBGMessage g),
     snd (displayBGMessage g) ++ repeat ":"%string (S failed),
     strip_newline raw) /\
  unannounced (fst (displayBGMessage g)) = 0%nat.
Proof.
  split; [| apply displayBGMessage_announces].
  unfold prompt.
  pose proof (displayBGMessage_announces g) as Hg.
  destruct (displayBGMessage g) as [g1 shown]. cbn [fst snd] in *.
  rewrite (prompt_again_announced failed g1 Hg). reflexivity.
Qed.

(** ** The spawner, once more *)

(** X23.  A background command without redirection: the shell does not
    wait, prints the pid, registers it after the jobs it holds and keeps
    the result of the last foreground command; the child, when
    [/dev/null] opens, reads from it and writes to it, not to the
    terminal. *)
Theorem background_job (env : spawn_env) (sigs : signals)
    (args : list string) (procs : processes) (status : result)
    (g : globals) (l : list Z) :
  backgroundFlag g = true ->
  inputRedirectionFlag g = false ->
  outputRedirectionFlag g = false ->
  0 < fork_pid env ->
  0 <= sys_open (child_os env) "/dev/null" O_RDONLY ->
  0 <= sys_open (child_os env) "/dev/null" O_WRONLY_CREAT ->
  holds procs l ->
  p_status (fst (spawnProcess env sigs args procs status g)) = status /\
  holds (p_procs (fst (spawnProcess env sigs args procs status g)))
    (l ++ [fork_pid env]) /\
  p_printed (fst (spawnProcess env sigs args procs status g))
  = [line_of ("background pid is " ++ decimal (fork_pid env))] /\
  p_glob (fst (spawnProcess env sigs args procs status g)) = g /\
  exists c : child,
    snd (spawnProcess env sigs args procs status g) = Some c /\
    fd0 c = Opened "/dev/null" O_RDONLY /\
    fd1 c = Opened "/dev/null" O_WRONLY_CREAT.
Proof.
  intros Hbg Hin Hout Hpid Hnull0 Hnull1 Hl.
  unfold spawnProcess, spawnProcess_parent. cbn [fst snd].
  destruct (Z.eqb_spec (fork_pid env) (-1)) as [Hf | _]; [lia |].
  rewrite Hbg. cbn [p_status p_procs p_printed p_glob].
  split; [reflexivity | split; [| split; [reflexivity | split; [reflexivity |]]]].
  - apply processesAdd_holds; [exact Hl | lia].
  - eexists. split; [reflexivity |].
    unfold spawnProcess_child, child_input, child_output, dup2.
    rewrite Hin, Hout, Hbg.
    destruct (Z.ltb_spec (sys_open (child_os env) "/dev/null" O_RDONLY) 0);
      [lia |].
    destruct (Z.ltb_spec (sys_open (child_os env) "/dev/null" O_WRONLY_CREAT) 0);
      [lia |].
    destruct (sys_execvp (child_os env) args); split; reflexivity.
Qed.

Lemma background_job_witness :
  p_printed
    (fst (spawnProcess
            {| fork_pid := 4321; child_os := obliging;
               wait_results := WExited 0 |}
            setInterrupts ["sleep"%string; "5"%string] createProcessArray
            {| code := 0; sig := 0 |}
            (set_backgroundFlag true initial_globals)))
  = [line_of ("background pid is " ++ decimal 4321)].
Proof.
  apply (background_job
           {| fork_pid := 4321; child_os := obliging;
              wait_results := WExited 0 |}
           setInterrupts ["sleep"%string; "5"%string] createProcessArray
           {| code := 0; sig := 0 |}
           (set_backgroundFlag true initial_globals) []);
    try reflexivity; try (simpl; lia).
  apply createProcessArray_holds.
Defined.

(** X24.  When the input file cannot be opened the child stops there:
    it prints the message naming the file, calls [exit(1)], never reaches
    program replacement, and has redirected neither of its streams,
    whatever the output redirection and the background flag say. *)
Theorem input_failure_stops_child (sys : os) (sigs : signals)
    (args : list string) (g : globals) :
  inputRedirectionFlag g = true ->
  sys_open sys (inputRedirectionFileName g) O_RDONLY = (-1) ->
  child_ended (spawnProcess_child sys sigs args g) = Exit 1 /\
  child_printed (spawnProcess_child sys sigs args g)
  = [line_of ("cannot open " ++ inputRedirectionFileName g ++ " for input")]
  /\ fd0 (spawnProcess_child sys sigs args g) = Inherited
  /\ fd1 (spawnProcess_child sys sigs args g) = Inherited.
Proof.
  intros Hflag Hopen. unfold spawnProcess_child, child_input.
  rewrite Hflag, Hopen. repeat split; reflexivity.
Qed.

Lemma input_failure_stops_child_witness :
  child_ended
    (spawnProcess_child no_files setInterrupts ["wc"%string; "-l"%string]
       (set_output "out" (set_input "/nonexistent" initial_globals)))
  = Exit 1.
Proof.
  apply (input_failure_stops_child no_files setInterrupts
           ["wc"%string; "-l"%string]
           (set_output "out" (set_input "/nonexistent" initial_globals)));
    reflexivity.
Defined.

(** ** The two string helpers *)

Lemma string_in_stringFromInt_rest (value : Z) (rest : list ascii) :
  string_in (stringFromInt value (NUL :: NUL :: NUL :: rest))
  = string_in (stringFromInt value [NUL; NUL; NUL]).
Proof.
  unfold stringFromInt. destruct (value <? 10).
  - cbn [insert list_insert string_in].
    change (NUL =? NUL)%char with true. cbv iota.
    destruct (_ =? NUL)%char; reflexivity.
  - cbn [insert list_insert string_in].
    change (NUL =? NUL)%char with true. cbv iota.
    destruct (_ =? NUL)%char; [reflexivity |].
    destruct (_ =? NUL)%char; reflexivity.
Qed.

Lemma stringFromInt_table :
  forallb
    (fun n : nat =>
       String.eqb (string_in (stringFromInt (Z.of_nat n) [NUL; NUL; NUL]))
         (decimal (Z.of_nat n)))
    (seq 0 100) = true.
Proof. vm_compute. reflexivity. Qed.

(** X25.  [stringFromInt] writes the decimal digits of a value from 0 to
    99 at the start of a zeroed buffer: the string then held by the
    buffer is the text that [%d] gives for the value. *)
Theorem stringFromInt_decimal (value : Z) (rest : list ascii) :
  0 <= value < 100 ->
  string_in (stringFromInt value (NUL :: NUL :: NUL :: rest)) = decimal value.
Proof.
  intros Hrange. rewrite string_in_stringFromInt_rest.
  pose proof stringFromInt_table as Htable.
  rewrite forallb_forall in Htable.
  specialize (Htable (Z.to_nat value)).
  rewrite Z2Nat.id in Htable by lia.
  apply String.eqb_eq, Htable, in_seq. lia.
Qed.

Lemma stringFromInt_decimal_witness :
  string_in (stringFromInt 42 [NUL; NUL; NUL; NUL]) = decimal 42.
Proof. apply (stringFromInt_decimal 42 [NUL]). lia. Defined.

(** X26.  [getStringLength] counts the characters stored before the
    first terminator, whatever follows it in memory, and the string held
    by the buffer is the one stored; on memory without a terminator it
    finds no length. *)
Theorem getStringLength_stored (s : string) (rest : list ascii) :
  all_chars not_NUL s = true ->
  getStringLength (list_ascii_of_string s ++ NUL :: rest)
  = Some (Z.of_nat (String.length s)) /\
  string_in (list_ascii_of_string s ++ NUL :: rest) = s /\
  getStringLength (list_ascii_of_string s) = None.
Proof.
  induction s as [| c s IH]; intros H.
  - repeat split; reflexivity.
  - simpl in H. apply andb_prop in H as [Hc Hs].
    destruct (IH Hs) as (IH1 & IH2 & IH3).
    unfold not_NUL in Hc. apply negb_true_iff in Hc.
    cbn [list_ascii_of_string app getStringLength string_in String.length].
    change (c =? NUL)%char with (c =? "000")%char.
    rewrite Hc, IH1, IH2, IH3. repeat split; try reflexivity.
    cbn [option_map]. f_equal. lia.
Qed.

Lemma getStringLength_stored_witness :
  getStringLength (list_ascii_of_string "smallsh" ++ [NUL; "x"%char])
  = Some 7.
Proof.
  apply (getStringLength_stored "smallsh" ["x"%char]). reflexivity.
Defined.

(** ** A token that holds the marker *)

Lemma parse_iter_word (pid : Z) (k : list string) (t : string)
    (tl : list string) (g : globals) :
  t <> "<"%string -> t <> ">"%string -> t <> "$$"%string -> t <> "&"%string ->
  parse_iter pid {| kept := k; pending := t :: tl; glob := g |}
  = Some {| kept := k ++ [replaceDoubleDollars pid t]; pending := tl;
            glob := g |}.
Proof.
  intros H1 H2 H3 H4. unfold parse_iter. cbn [pending kept glob].
  rewrite (proj2 (String.eqb_neq _ _) H1), (proj2 (String.eqb_neq _ _) H2),
    (proj2 (String.eqb_neq _ _) H3), (proj2 (String.eqb_neq _ _) H4).
  reflexivity.
Qed.

(** X4.  A token in which the marker occurs, alone or inside a longer
    word, reaches the argument vector with its first marker replaced by
    the digits of the pid and every other character in place; the branch
    of [parseArgs] for a token that is exactly the marker and
    [replaceDoubleDollars] agree on it, and no flag is touched. *)
Theorem marker_token_expanded (pid : Z) (pre post : string) (g : globals) :
  has_marker (pre ++ "$")%string = false ->
  parseArgs pid [(pre ++ "$$" ++ post)%string] g
  = ([(pre ++ pidString pid ++ post)%string], g).
Proof.
  intros Hfirst.
  pose proof (replaceDoubleDollars_first pid pre post Hfirst) as Hrdd.
  destruct (pidString_plain pid) as (Hp1 & Hp2 & Hp3 & Hp4 & Hp5).
  assert (Hlen : (2 <= String.length (pre ++ "$$" ++ post)%string)%nat)
    by (rewrite string_length_append; simpl; lia).
  unfold parseArgs, parseArgs_state.
  change (2 * List.length [(pre ++ "$$" ++ post)%string])%nat with 2%nat.
  destruct (String.eqb_spec (pre ++ "$$" ++ post)%string "$$") as [Heq | Hne].
  - assert (Hpre : pre = EmptyString).
    { apply (f_equal String.length) in Heq.
      rewrite string_length_append in Heq. simpl in Heq.
      destruct pre; [reflexivity | simpl in Heq; lia]. }
    subst pre. cbn [append] in *.
    assert (Hpost : post = EmptyString) by (now injection Heq).
    subst post. rewrite append_empty_r.
    cbn [parse_loop].
    change (parse_iter pid {| kept := []; pending := ["$$"%string]; glob := g |})
      with (Some {| kept := []; pending := [pidString pid]; glob := g |}).
    cbv iota. rewrite parse_iter_word by assumption.
    rewrite (replaceDoubleDollars_no_marker _ _ Hp5). reflexivity.
  - cbn [parse_loop]. rewrite parse_iter_word.
    + rewrite Hrdd. reflexivity.
    + intros H. rewrite H in Hlen. simpl in Hlen. lia.
    + intros H. rewrite H in Hlen. simpl in Hlen. lia.
    + exact Hne.
    + intros H. rewrite H in Hlen. simpl in Hlen. lia.
Qed.

Lemma marker_token_expanded_witness :
  parseArgs 1234 ["log$$.txt"%string] initial_globals
  = (["log1234.txt"%string], initial_globals).
Proof.
  apply (marker_token_expanded 1234 "log" ".txt" initial_globals).
  reflexivity.
Defined.
